(** * Table recovery and Abbyy markup serialisation of [TessBaseAPI]

    A shallow embedding of [src/api/tableextractor.cpp] and
    [src/api/abbyyrenderer.cpp].

    Conventions.
    - A C++ [int] is a [Z]; pixel coordinates and counters stay far away from
      the 32-bit limits, where signed overflow is undefined anyway.
    - A [size_t] loop index or an [int] that only ever holds such an index
      ([prev_row], [cur_row], [prev_col], [cur_col]) is a [nat];
      [cur_table_idx] and [prev_table_idx] keep their [-1] sentinel and are
      [Z].
    - [std::vector<T>] is [list T]; [push_back] appends at the end.
    - The OpenCV primitives and the recogniser's iterator are outside the
      repository.  The two OpenCV functions that make up the membership test
      ([cv::boundingRect] on a point set and [cv::Rect::contains]) are written
      out in [Module cv] as OpenCV documents them; the others are the fields
      of an interface ([CvBackend]).
    - [GetAbbyyText] is modelled with [abbyy_debug] off (the debug branches
      only draw and print) and without the [_WIN32] block, which recodes the
      input name on Windows. *)

From Stdlib Require Import QArith.QArith_base Strings.Ascii Strings.String.
From stdpp Require Import base tactics option numbers list sorting strings pretty.

Local Open Scope Z_scope.

(** ** OpenCV value types *)

Module cv.

Record Point := mkPoint { x : Z; y : Z }.

(** [cv::Rect_<int>]: top-left corner, width and height. *)
Record Rect := mkRect { rx : Z; ry : Z; width : Z; height : Z }.

(** [Rect::contains]: [x <= pt.x && pt.x < x + width && y <= pt.y &&
    pt.y < y + height]. *)
Definition contains (r : Rect) (pt : Point) : bool :=
  (rx r <=? x pt) && (x pt <? rx r + width r) &&
  (ry r <=? y pt) && (y pt <? ry r + height r).

(** Running minimum and maximum of one coordinate over a point set, as the
    single pass of [pointSetBoundingRect] keeps them. *)
Fixpoint min_of (f : Point → Z) (m : Z) (pts : list Point) : Z :=
  match pts with
  | [] => m
  | p :: pts' => min_of f (if f p <? m then f p else m) pts'
  end.

Fixpoint max_of (f : Point → Z) (m : Z) (pts : list Point) : Z :=
  match pts with
  | [] => m
  | p :: pts' => max_of f (if m <? f p then f p else m) pts'
  end.

(** [cv::boundingRect] of a point set: the empty set gives [Rect()], any
    other set the up-right rectangle
    [Rect(xmin, ymin, xmax - xmin + 1, ymax - ymin + 1)]. *)
Definition boundingRect (pts : list Point) : Rect :=
  match pts with
  | [] => mkRect 0 0 0 0
  | p :: pts' =>
      let xmin := min_of x (x p) pts' in
      let xmax := max_of x (x p) pts' in
      let ymin := min_of y (y p) pts' in
      let ymax := max_of y (y p) pts' in
      mkRect xmin ymin (xmax - xmin + 1) (ymax - ymin + 1)
  end.

End cv.

(** [Joint] (declared in baseapi.h): per table, per joint contour, the
    contour's points. *)
Abbreviation JointContour := (list cv.Point) (only parsing).
Abbreviation TableJoints := (list (list cv.Point)) (only parsing).
Abbreviation Joint := (list (list (list cv.Point))) (only parsing).

(** ** GridBuilder: the coordinate accumulation of [GetAbbyyText]
    (abbyyrenderer.cpp, lines 189-224) *)

Module Grid.

(** The innermost [k] loop: is some accumulated coordinate within 3 pixels
    of [c]?  It leaves at the first hit. *)
Fixpoint near_any (acc : list Z) (c : Z) : bool :=
  match acc with
  | [] => false
  | a :: acc' => if Z.abs (a - c) <? 3 then true else near_any acc' c
  end.

(** The [l] loop of the x pass: [stop] is declared inside the loop body, so
    every point starts with [stop = false]. *)
Fixpoint scan_group_x (pts : list cv.Point) (xs : list Z) : list Z :=
  match pts with
  | [] => xs
  | p :: pts' =>
      let stop := near_any xs (cv.x p) in
      if stop then xs                         (* break *)
      else scan_group_x pts' (xs ++ [cv.x p]) (* x.push_back *)
  end.

(** The [l] loop of the y pass: here [stop] is declared once per joint
    group, outside the loop, and carried from point to point. *)
Fixpoint scan_group_y (pts : list cv.Point) (stop : bool) (ys : list Z)
  : list Z :=
  match pts with
  | [] => ys
  | p :: pts' =>
      let stop := if near_any ys (cv.y p) then true else stop in
      if stop then ys
      else scan_group_y pts' stop (ys ++ [cv.y p])
  end.

(** The [j] loops: [j] runs from [size - 1] down to [0]; the argument [n]
    is [j + 1]. *)
Fixpoint scan_groups_x (table : TableJoints) (n : nat) (xs : list Z)
  : list Z :=
  match n with
  | O => xs
  | S j =>
      match table !! j with
      | Some g => scan_groups_x table j (scan_group_x g xs)
      | None => xs
      end
  end.

Fixpoint scan_groups_y (table : TableJoints) (n : nat) (ys : list Z)
  : list Z :=
  match n with
  | O => ys
  | S j =>
      match table !! j with
      | Some g => scan_groups_y table j (scan_group_y g false ys)
      | None => ys
      end
  end.

(** [std::sort] on [int]s. *)
Definition sort : list Z → list Z := merge_sort Z.le.

(** One iteration of the loop over [tables_joints]: the two sorted
    coordinate vectors pushed onto [x_coords] and [y_coords]. *)
Definition x_grid (table : TableJoints) : list Z :=
  sort (scan_groups_x table (length table) []).

Definition y_grid (table : TableJoints) : list Z :=
  sort (scan_groups_y table (length table) []).

Definition x_coords (tables_joints : Joint) : list (list Z) :=
  x_grid <$> tables_joints.

Definition y_coords (tables_joints : Joint) : list (list Z) :=
  y_grid <$> tables_joints.

(** *** The reference algorithm of the specification (section 4.4)

    Written from the specification's words, to be compared with the loops
    above. *)

(** "not within the tolerance (3 px) of an already-accumulated coordinate". *)
Definition spec_fresh (acc : list Z) (c : Z) : bool :=
  forallb (λ a, 3 <=? Z.abs (a - c)) acc.

(** "scan its points and accumulate a candidate coordinate only if it is
      fresh; stop accumulating from a group as soon as one within-tolerance
      duplicate is found". *)
Fixpoint spec_group (coord : cv.Point → Z) (pts : list cv.Point)
    (acc : list Z) : list Z :=
  match pts with
  | [] => acc
  | p :: pts' =>
      if spec_fresh acc (coord p)
      then spec_group coord pts' (acc ++ [coord p])
      else acc
  end.

(** "iterate joint groups in reverse discovery order ... After accumulation,
      sort the axis's coordinate list ascending". *)
Definition spec_axis (coord : cv.Point → Z) (table : TableJoints) : list Z :=
  sort (foldl (λ acc g, spec_group coord g acc) [] (reverse table)).

(** Two coordinates at least the tolerance apart. *)
Definition far (a b : Z) : Prop := 3 ≤ Z.abs (a - b).

(** No two entries of the list are within the tolerance of each other. *)
Inductive separated : list Z → Prop :=
| separated_nil : separated []
| separated_cons a l : Forall (far a) l → separated l → separated (a :: l).

End Grid.

(** ** TableMembership: [IsPointInsideTable] (tableextractor.cpp, lines
    131-144) and the per-word lookups of [GetAbbyyText] (abbyyrenderer.cpp,
    lines 283-294 and 307-348) *)

Module Membership.

(** [IsPointInsideTable(cv::Point, table)]: the joint contours are flattened
    into [new_table] by inserting each at the end, and the point is tested
    against the bounding rectangle of the whole. *)
Definition IsPointInsideTable (point : cv.Point) (table : list (list cv.Point))
  : bool :=
  let new_table := foldl (λ new_table it, new_table ++ it) [] table in
  let boundRect := cv.boundingRect new_table in
  cv.contains boundRect point.

(** The [int, int] overload. *)
Definition IsPointInsideTable_xy (x y : Z) (table : list (list cv.Point)) : bool :=
  IsPointInsideTable (cv.mkPoint x y) table.

(** The loop over [tables_joints] of lines 285-294, from index [n] on:
    the index of the first table that holds the point, [-1] when the loop
    ends with [in_table] still false. *)
Fixpoint find_table_from (x y : Z) (tables : list (list (list cv.Point)))
    (n : nat) : Z :=
  match tables with
  | [] => -1
  | table :: rest =>
      if IsPointInsideTable_xy x y table then Z.of_nat n
      else find_table_from x y rest (S n)
  end.

Definition find_table (x y : Z) (tables_joints : list (list (list cv.Point))) : Z :=
  find_table_from x y tables_joints 0.

(** [x = (left + right) / 2.0]: the sum is divided as a [double] and the
    quotient converted back to [int], which truncates towards zero. *)
Definition center (lo hi : Z) : Z := Z.quot (lo + hi) 2.

(** The scan [for (size_t i = 1; i < coords.size(); i++) if (c < coords[i])
    { ...; break; }], looking at [coords[i], coords[i+1], ...] given as
    [rest]: the index of the hit, if there is one. *)
Fixpoint first_above (c : Z) (rest : list Z) (i : nat) : option nat :=
  match rest with
  | [] => None
  | b :: rest' => if c <? b then Some i else first_above c rest' (S i)
  end.

Definition find_boundary (c : Z) (coords : list Z) : option nat :=
  first_above c (drop 1 coords) 1.

(** [cur_row] / [cur_col]: initialised to 0, set to the hit index. *)
Definition cur_index (c : Z) (coords : list Z) : nat :=
  default O (find_boundary c coords).

(** *** The specification's reading of membership (section 4.5) *)

(** The point lies in the axis-aligned bounding rectangle of the point set,
    all four edges included: on each axis it is between two points of the
    set. *)
Definition in_bounding_rect_inclusive (x y : Z) (pts : list cv.Point) : Prop :=
  (∃ p, p ∈ pts ∧ cv.x p ≤ x) ∧ (∃ p, p ∈ pts ∧ x ≤ cv.x p) ∧
  (∃ p, p ∈ pts ∧ cv.y p ≤ y) ∧ (∃ p, p ∈ pts ∧ y ≤ cv.y p).

(** [r] is the answer for the point: the index of the first region, in
    list order, whose rectangle holds the point, or [-1] for "none". *)
Definition first_region_containing (x y : Z)
    (tables : list (list (list cv.Point))) (r : Z) : Prop :=
  (r = -1 ∧ ∀ table, table ∈ tables →
              ¬ in_bounding_rect_inclusive x y (concat table))
  ∨ (∃ (n : nat) table,
       r = Z.of_nat n ∧ tables !! n = Some table ∧
       in_bounding_rect_inclusive x y (concat table) ∧
       ∀ (m : nat) table', (m < n)%nat → tables !! m = Some table' →
              ¬ in_bounding_rect_inclusive x y (concat table')).

(** [i] is the smallest index [i >= 1] into [coords] with [c < coords[i]]. *)
Definition smallest_boundary_above (c : Z) (coords : list Z) (i : nat) : Prop :=
  (1 ≤ i)%nat ∧ (∃ b, coords !! i = Some b ∧ c < b) ∧
  ∀ (j : nat) b, (1 ≤ j)%nat → (j < i)%nat → coords !! j = Some b → b ≤ c.

(** Section 8 of the specification, for two words met one after the other
    inside table [n]: with centres non-decreasing in y the row index does
    not decrease, and within one row, with centres non-decreasing in x, the
    column index does not decrease. *)
Definition indices_monotone_within (tables : list (list (list cv.Point)))
    (x_coords y_coords : list (list Z)) : Prop :=
  ∀ (n : nat) (x1 y1 x2 y2 : Z),
    find_table x1 y1 tables = Z.of_nat n →
    find_table x2 y2 tables = Z.of_nat n →
    let ys := default [] (y_coords !! n) in
    let xs := default [] (x_coords !! n) in
    (y1 ≤ y2 → (cur_index y1 ys ≤ cur_index y2 ys)%nat) ∧
    (cur_index y1 ys = cur_index y2 ys → x1 ≤ x2 →
     (cur_index x1 xs ≤ cur_index x2 xs)%nat).

(** The same, asked only of a later word that has an assignment on the
    axis (its index is not 0). *)
Definition indices_monotone_when_assigned (tables : list (list (list cv.Point)))
    (x_coords y_coords : list (list Z)) : Prop :=
  ∀ (n : nat) (x1 y1 x2 y2 : Z),
    find_table x1 y1 tables = Z.of_nat n →
    find_table x2 y2 tables = Z.of_nat n →
    let ys := default [] (y_coords !! n) in
    let xs := default [] (x_coords !! n) in
    (y1 ≤ y2 → cur_index y2 ys ≠ O → (cur_index y1 ys ≤ cur_index y2 ys)%nat) ∧
    (cur_index y1 ys = cur_index y2 ys → x1 ≤ x2 → cur_index x2 xs ≠ O →
     (cur_index x1 xs ≤ cur_index x2 xs)%nat).

End Membership.

(** ** TableRegionDetector: [ExtractTableJoints] (tableextractor.cpp, lines
    15-129) *)

(** A [cv::Exception] leaving an OpenCV call; nothing in the two files
    catches it. *)
Inductive cv_result (A : Type) : Type :=
| Ok (a : A)
| CvException.
Arguments Ok {A} a.
Arguments CvException {A}.

Global Instance cv_ret : MRet cv_result := λ A a, Ok a.

Global Instance cv_bind : MBind cv_result := λ A B f m,
  match m with
  | Ok a => f a
  | CvException => CvException
  end.

(** The OpenCV toolbox [ExtractTableJoints] calls.  [imread] does not throw: a
    file it cannot read gives an empty matrix, one whose [data] is null.  The
    image operations before the contour loop may throw; the calls made inside
    the loop are applied to contours that [findContours] has just produced
    and to their rectangle inside the mask, and are plain functions;
    [findContours] leaves the matrix it searches unchanged, so every
    iteration sees the same joint mask.
    [contourArea] returns a [double]; the areas of pixel polygons are
    multiples of one half, so a rational stands for it. *)
Class CvBackend := {
  Mat : Type;
  imread : string → Mat;
  data_is_null : Mat → bool;
  channels : Mat → Z;
  cols : Mat → Z;
  rows : Mat → Z;
  cvtColor_BGR2GRAY : Mat → cv_result Mat;
  bitwise_not : Mat → cv_result Mat;
  (** [adaptiveThreshold(src, maxValue, ADAPTIVE_THRESH_MEAN_C, THRESH_BINARY,
      blockSize, C)] *)
  adaptiveThreshold : Mat → Z → Z → Z → cv_result Mat;
  (** [getStructuringElement(MORPH_RECT, Size(width, height))] *)
  getStructuringElement : Z → Z → cv_result Mat;
  erode : Mat → Mat → cv_result Mat;
  dilate : Mat → Mat → cv_result Mat;
  mat_add : Mat → Mat → cv_result Mat;
  bitwise_and : Mat → Mat → cv_result Mat;
  (** [findContours(.., RETR_EXTERNAL, CHAIN_APPROX_SIMPLE, Point(0, 0))] *)
  findContours_external : Mat → cv_result (list (list cv.Point));
  contourArea : list cv.Point → Q;
  (** [approxPolyDP(curve, out, epsilon, closed)] *)
  approxPolyDP : list cv.Point → Z → bool → list cv.Point;
  (** [joints(rect)]: the part of the matrix inside the rectangle. *)
  roi_of : Mat → cv.Rect → Mat;
  (** [locateROI]: where that part starts inside the whole matrix. *)
  locateROI : Mat → cv.Point;
  (** [findContours(.., RETR_CCOMP, CHAIN_APPROX_SIMPLE)] *)
  findContours_ccomp : Mat → list (list cv.Point);
}.

Module TableExtractor.
Section with_backend.
Context `{backend : CvBackend}.

(** [area < 50] on the [double] that [contourArea] returns. *)
Definition area_below_50 (contour : list cv.Point) : bool :=
negb (Qle_bool (inject_Z 50) (contourArea contour)).

(** What one iteration of the loop computes for contour [i] before it
  decides: the bounding rectangle of the polygon approximation, the
  offset of the cropped joint mask, and the joint contours found in it. *)
Definition boundRect_of (contour : list cv.Point) : cv.Rect :=
cv.boundingRect (approxPolyDP contour 3 true).

Definition offset_of (joints : Mat) (contour : list cv.Point) : cv.Point :=
locateROI (roi_of joints (boundRect_of contour)).

Definition joints_contours_of (joints : Mat) (contour : list cv.Point)
: list (list cv.Point) :=
findContours_ccomp (roi_of joints (boundRect_of contour)).

(** Lines 108-113: every point of every joint contour is moved by the
  offset. *)
Definition translate (offset : cv.Point) (p : cv.Point) : cv.Point :=
cv.mkPoint (cv.x p + cv.x offset) (cv.y p + cv.y offset).

Definition translate_all (offset : cv.Point) (joints_contours : list (list cv.Point))
: list (list cv.Point) :=
map (map (translate offset)) joints_contours.

(** The loop of lines 84-123 over the remaining contours, with
  [tables_joints] as filled so far. *)
Fixpoint tables_loop (joints : Mat) (contours : list (list cv.Point))
  (tables_joints : list (list (list cv.Point))) : list (list (list cv.Point)) :=
match contours with
| [] => tables_joints
| contour :: rest =>
    if area_below_50 contour
    then tables_loop joints rest tables_joints            (* continue *)
    else
      let roi := roi_of joints (boundRect_of contour) in
      let offset := locateROI roi in
      let joints_contours := findContours_ccomp roi in
      if (length joints_contours <=? 4)%nat
      then tables_loop joints rest tables_joints          (* continue *)
      else tables_loop joints rest
             (tables_joints ++ [translate_all offset joints_contours])
end.

(** Lines 18-71: from the file name to the joint mask and the contours of
  the combined line mask. *)
Definition line_masks (filename : string)
: cv_result (Mat * list (list cv.Point)) :=
let src := imread filename in
(* if (!src.data) std::cerr << "OpenCV Error: Cannot load image!";
   the message is all that happens, execution goes on *)
gray ← (if channels src =? 3 then cvtColor_BGR2GRAY src else Ok src);
inverted ← bitwise_not gray;
bw ← adaptiveThreshold inverted 255 15 (-2);
let horizontal := bw in
let vertical := bw in
let scale := 30 in
let horizontalsize := Z.quot (cols horizontal) scale in
horizontalStructure ← getStructuringElement horizontalsize 1;
horizontal ← erode horizontal horizontalStructure;
horizontal ← dilate horizontal horizontalStructure;
let verticalsize := Z.quot (rows vertical) scale in
verticalStructure ← getStructuringElement 1 verticalsize;
vertical ← erode vertical verticalStructure;
vertical ← dilate vertical verticalStructure;
mask ← mat_add horizontal vertical;
joints ← bitwise_and horizontal vertical;
contours ← findContours_external mask;
Ok (joints, contours).

Definition ExtractTableJoints (filename : string)
: cv_result (list (list (list cv.Point))) :=
'(joints, contours) ← line_masks filename;
Ok (tables_loop joints contours []).

(** *** The detector as the specification describes it (section 4.3) *)

(** A candidate is kept when its area is not below 50 and more than four
  joints are found inside its rectangle. *)
Definition accepted (joints : Mat) (contour : list cv.Point) : bool :=
negb (area_below_50 contour) &&
negb (length (joints_contours_of joints contour) <=? 4)%nat.

(** The region recorded for a kept candidate. *)
Definition region_of (joints : Mat) (contour : list cv.Point)
: list (list cv.Point) :=
translate_all (offset_of joints contour) (joints_contours_of joints contour).

Definition spec_regions (joints : Mat) (contours : list (list cv.Point))
: list (list (list cv.Point)) :=
region_of joints <$> filter (λ contour, accepted joints contour = true) contours.

End with_backend.
End TableExtractor.

(** ** LayoutSerializer: [GetAbbyyText] (abbyyrenderer.cpp, lines 141-598) *)

Module Abbyy.

(** *** The output

    The text that [GetAbbyyText] streams into [abbyy_str] is kept as the
    sequence of its pieces: start tags, end tags and character data, each
    with exactly the characters the source writes.  [print] joins them into
    the returned string. *)

Inductive element :=
| Page | Block | Table | TBody | Tr | Td | Paragraph | Line | WordSpan
| Strong | Em.

Global Instance element_eq_dec : EqDecision element.
Proof. solve_decision. Defined.

Inductive markup :=
(** a start tag: [lead], then the attributes as [name='value'] separated by
    single blanks, then [>] *)
| Open (e : element) (lead : string) (attrs : list (string * string))
(** an end tag, written as [s] *)
| Close (e : element) (s : string)
(** characters between tags: the text of a word, line ends *)
| Text (s : string)
(** characters written behind an end tag that belong to no tag: the
    direction markers of lines 464-476 *)
| Loose (s : string).

Definition LF : string := String "010"%char EmptyString.

Definition print_attr (a : string * string) : string :=
  a.1 +:+ "='" +:+ a.2 +:+ "'".

Definition print_attrs (attrs : list (string * string)) : string :=
  String.concat " " (print_attr <$> attrs) +:+ ">".

Definition print_markup (m : markup) : string :=
  match m with
  | Open _ lead attrs => lead +:+ print_attrs attrs
  | Close _ s => s
  | Text s => s
  | Loose s => s
  end.

Definition print (out : list markup) : string :=
  String.concat "" (print_markup <$> out).

(** [abbyy_str << int], in the classic locale. *)
Definition show (n : Z) : string := pretty n.

(** [static_cast<int>(bool)] *)
Definition bool_int (b : bool) : Z := if b then 1 else 0.

(** *** What the recogniser's iterator reports at a word *)

Record Box := mkBox {
  box_left : Z; box_top : Z; box_right : Z; box_bottom : Z }.

Inductive StrongScriptDirection :=
| DIR_NEUTRAL | DIR_LEFT_TO_RIGHT | DIR_RIGHT_TO_LEFT | DIR_MIX.

(** One position of the [ResultIterator] at level [RIL_WORD], with the
    answers to every query [GetAbbyyText] makes there.  [confidence] is
    [static_cast<int>(Confidence(RIL_WORD))]; [font_name] and [lang] are
    [None] for a null pointer. *)
Record Word := mkWord {
  word_empty : bool;                      (* Empty(RIL_WORD) *)
  text : string;                          (* GetUTF8Text(RIL_WORD) *)
  at_block_start : bool;                  (* IsAtBeginningOf(RIL_BLOCK) *)
  at_para_start : bool;                   (* IsAtBeginningOf(RIL_PARA) *)
  at_line_start : bool;                   (* IsAtBeginningOf(RIL_TEXTLINE) *)
  last_word_in_line : bool;     (* IsAtFinalElement(RIL_TEXTLINE, RIL_WORD) *)
  last_word_in_para : bool;     (* IsAtFinalElement(RIL_PARA, RIL_WORD) *)
  last_word_in_block : bool;    (* IsAtFinalElement(RIL_BLOCK, RIL_WORD) *)
  block_box : Box;
  para_box : Box;
  line_box : Box;
  word_box : Box;
  confidence : Z;
  from_dictionary : bool;                 (* WordIsFromDictionary() *)
  numeric : bool;                         (* WordIsNumeric() *)
  bold : bool;
  italic : bool;
  pointsize : Z;
  font_name : option string;              (* WordFontAttributes(..) *)
  lang : option string;                   (* WordRecognitionLanguage() *)
  direction : StrongScriptDirection;      (* WordDirection() *)
  paragraph_is_ltr : bool                 (* ParagraphIsLtr() *)
}.

(** [find_first_not_of(" \t\n\v\f\r") == npos] *)
Definition is_space (c : ascii) : bool :=
  let n := nat_of_ascii c in
  Nat.eqb n 32 || Nat.eqb n 9 || Nat.eqb n 10 || Nat.eqb n 11 ||
  Nat.eqb n 12 || Nat.eqb n 13.

Definition is_blank (s : string) : bool :=
  forallb is_space (list_ascii_of_string s).

(** *** The serialisation cursor: the local variables of [GetAbbyyText] that
    live across words.  ([wcnt], [scnt], [tcnt], [gcnt] are never read.) *)
Record Cursor := mkCursor {
  para_is_ltr : bool;
  paragraph_lang : option string;
  lcnt : Z;
  bcnt : Z;
  pcnt : Z;
  prev_col : nat;
  prev_row : nat;
  prev_table_idx : Z
}.

Definition initial_cursor : Cursor :=
  {| para_is_ltr := true; paragraph_lang := None;
     lcnt := 1; bcnt := 1; pcnt := 1;
     prev_col := 0; prev_row := 0; prev_table_idx := -1 |}.

Definition set_para_is_ltr (b : bool) (c : Cursor) : Cursor :=
  mkCursor b (paragraph_lang c) (lcnt c) (bcnt c) (pcnt c)
           (prev_col c) (prev_row c) (prev_table_idx c).
Definition set_paragraph_lang (l : option string) (c : Cursor) : Cursor :=
  mkCursor (para_is_ltr c) l (lcnt c) (bcnt c) (pcnt c)
           (prev_col c) (prev_row c) (prev_table_idx c).
Definition set_lcnt (n : Z) (c : Cursor) : Cursor :=
  mkCursor (para_is_ltr c) (paragraph_lang c) n (bcnt c) (pcnt c)
           (prev_col c) (prev_row c) (prev_table_idx c).
Definition set_bcnt (n : Z) (c : Cursor) : Cursor :=
  mkCursor (para_is_ltr c) (paragraph_lang c) (lcnt c) n (pcnt c)
           (prev_col c) (prev_row c) (prev_table_idx c).
Definition set_pcnt (n : Z) (c : Cursor) : Cursor :=
  mkCursor (para_is_ltr c) (paragraph_lang c) (lcnt c) (bcnt c) n
           (prev_col c) (prev_row c) (prev_table_idx c).
Definition set_prev_col (n : nat) (c : Cursor) : Cursor :=
  mkCursor (para_is_ltr c) (paragraph_lang c) (lcnt c) (bcnt c) (pcnt c)
           n (prev_row c) (prev_table_idx c).
Definition set_prev_row (n : nat) (c : Cursor) : Cursor :=
  mkCursor (para_is_ltr c) (paragraph_lang c) (lcnt c) (bcnt c) (pcnt c)
           (prev_col c) n (prev_table_idx c).
Definition set_prev_table_idx (n : Z) (c : Cursor) : Cursor :=
  mkCursor (para_is_ltr c) (paragraph_lang c) (lcnt c) (bcnt c) (pcnt c)
           (prev_col c) (prev_row c) n.

(** *** Statements of the loop body: they read and write the cursor and
    append to [abbyy_str]. *)
Definition Render (A : Type) : Type := Cursor → A * Cursor * list markup.

Global Instance render_ret : MRet Render := λ A a st, (a, st, []).

Global Instance render_bind : MBind Render := λ A B f m st,
  let '(a, st1, out1) := m st in
  let '(b, st2, out2) := f a st1 in
  (b, st2, out1 ++ out2).

Definition emit (m : markup) : Render unit := λ st, (tt, st, [m]).
Definition get : Render Cursor := λ st, (st, st, []).
Definition modify (f : Cursor → Cursor) : Render unit := λ st, (tt, f st, []).
Definition when (b : bool) (body : Render unit) : Render unit :=
  if b then body else mret tt.

Definition run {A} (m : Render A) (st : Cursor) : Cursor * list markup :=
  let '(_, st', out) := m st in (st', out).

(** *** The attributes written by [AddBoxToAbbyy] *)
Definition box_attrs (b : Box) : list (string * string) :=
  [("left", show (box_left b)); ("top", show (box_top b));
   ("right", show (box_right b)); ("bottom", show (box_bottom b))].

(** What the loop reads but never changes. *)
Record PageEnv := mkPageEnv {
  page_id : Z;
  font_info : bool;                                 (* abbyy_font_info *)
  tables_joints : list (list (list cv.Point));
  x_coords : list (list Z);
  y_coords : list (list Z)
}.

(** [coords[cur_table_idx]] *)
Definition coords_at (coords : list (list Z)) (cur_table_idx : Z) : list Z :=
  default [] (coords !! Z.to_nat cur_table_idx).

(** Lines 307-327: the row scan.  Markup is written, and [prev_row] and
    [prev_col] change, only inside the hit. *)
Definition row_step (y : Z) (y_bounds : list Z) : Render unit :=
  match Membership.find_boundary y y_bounds with
  | Some cur_row =>
      st ← get;
      when (prev_row st <? cur_row)%nat (
        when (negb (prev_row st =? 0)%nat) (
          emit (Close Tr (LF +:+ "      </tr>"));;
          modify (set_prev_col 0));;
        emit (Open Tr (LF +:+ "      <tr") []);;
        modify (set_prev_row cur_row))
  | None => mret tt
  end.

(** Lines 328-348: the column scan. *)
Definition col_step (x : Z) (x_bounds : list Z) : Render unit :=
  match Membership.find_boundary x x_bounds with
  | Some cur_col =>
      st ← get;
      when (prev_col st <? cur_col)%nat (
        when (negb (prev_col st =? 0)%nat) (
          emit (Close Td (LF +:+ "       </td>")));;
        emit (Open Td (LF +:+ "       <td") []);;
        modify (set_prev_col cur_col))
  | None => mret tt
  end.

(** The text of a word between its start and end tag (lines 375-380 and
    454-460): the end tags come in the order the source writes them. *)
Definition word_body (w : Word) : list markup :=
  (if bold w then [Open Strong "<strong" []] else []) ++
  (if italic w then [Open Em "<em" []] else []) ++
  [Text (text w)] ++
  (if bold w then [Close Strong "</strong>"] else []) ++
  (if italic w then [Close Em "</em>"] else []) ++
  [Close WordSpan "</span>"].

(** Lines 355-374: the attributes of a word inside a table. *)
Definition table_word_attrs (w : Word) : list (string * string) :=
  [("wordconfidence", show (confidence w))] ++
  box_attrs (word_box w) ++
  [("wordfirst", show (bool_int (at_line_start w)));
   ("wordfromdictionary", show (bool_int (from_dictionary w)));
   ("wordnumeric", show (bool_int (numeric w)));
   ("fontsize", show (pointsize w))].

Definition table_word (w : Word) : list markup :=
  Open WordSpan (LF +:+ "        <span ") (table_word_attrs w) :: word_body w.

Section with_escape.
(** [HOcrEscape] is defined in another file of the library. *)
Variable HOcrEscape : string → string.

(** [lang && (!paragraph_lang || strcmp(lang, paragraph_lang))] *)
Definition lang_differs (lang paragraph_lang : option string) : bool :=
  match lang, paragraph_lang with
  | Some l, Some pl => negb (String.eqb l pl)
  | Some _, None => true
  | None, _ => false
  end.

(** Lines 426-453: the attributes of a word in the text flow. *)
Definition flow_word_attrs (font_info : bool) (paragraph_lang : option string)
    (w : Word) : list (string * string) :=
  [("class", "word"); ("wordconfidence", show (confidence w))] ++
  box_attrs (word_box w) ++
  [("wordfirst", show (bool_int (at_line_start w)))] ++
  (if lang_differs (lang w) paragraph_lang
   then [("lang", default "" (lang w))] else []) ++
  [("wordfromdictionary", show (bool_int (from_dictionary w)));
   ("wordnumeric", show (bool_int (numeric w)))] ++
  (if font_info
   then match font_name w with
        | Some f => [("font_name", HOcrEscape f)]
        | None => []
        end
   else []) ++
  [("fontsize", show (pointsize w))].

(** Lines 464-476: the [switch] on [WordDirection()]. *)
Definition direction_marker (para_is_ltr : bool) (w : Word) : list markup :=
  match direction w with
  | DIR_LEFT_TO_RIGHT => if para_is_ltr then [] else [Loose " dir='ltr'"]
  | DIR_RIGHT_TO_LEFT => if para_is_ltr then [Loose " dir='rtl'"] else []
  | DIR_MIX | DIR_NEUTRAL => []
  end.

Definition flow_word (font_info : bool) (st : Cursor) (w : Word) : list markup :=
  Open WordSpan (LF +:+ "      <span ")
       (flow_word_attrs font_info (paragraph_lang st) w)
  :: word_body w ++ direction_marker (para_is_ltr st) w.

Definition emit_all (out : list markup) : Render unit := λ st, (tt, st, out).

(** Lines 382-395: a paragraph opens. *)
Definition open_paragraph (env : PageEnv) (w : Word) : Render unit :=
  modify (set_para_is_ltr (paragraph_is_ltr w));;
  modify (set_paragraph_lang (lang w));;
  st ← get;
  emit (Open Paragraph
          (LF +:+ "    <p class='paragraph'" +:+
           (if paragraph_is_ltr w then "" else " dir='rtl'") +:+
           " id='par_" +:+ show (page_id env) +:+ "_" +:+ show (pcnt st) +:+ "' " +:+
           match lang w with
           | Some l => " lang='" +:+ l +:+ "'"
           | None => ""
           end)
          (box_attrs (para_box w))).

(** Lines 396-401: a text line opens. *)
Definition open_line (env : PageEnv) (w : Word) : Render unit :=
  st ← get;
  emit (Open Line
          (LF +:+ "     <span class='line' id='line_" +:+ show (page_id env) +:+
           "_" +:+ show (lcnt st) +:+ "' ")
          (box_attrs (line_box w))).

(** Lines 272-278: a block opens. *)
Definition open_block (env : PageEnv) (w : Word) : Render unit :=
  modify (set_para_is_ltr true);;
  st ← get;
  emit (Open Block
          ("   <div class='block' id='block_" +:+ show (page_id env) +:+
           "_" +:+ show (bcnt st) +:+ "' ")
          (box_attrs (block_box w))).

(** Lines 272-586: the loop body for a word that is neither empty nor
    blank. *)
Definition process_word (env : PageEnv) (w : Word) : Render unit :=
  when (at_block_start w) (open_block env w);;
  let x := Membership.center (box_left (word_box w)) (box_right (word_box w)) in
  let y := Membership.center (box_top (word_box w)) (box_bottom (word_box w)) in
  let cur_table_idx := Membership.find_table x y (tables_joints env) in
  st ← get;
  when (negb (prev_table_idx st =? cur_table_idx)) (
    emit (Close Table (LF +:+ "    </table>"));;
    emit (Close TBody (LF +:+ "     </tbody>"));;
    modify (set_prev_row 0);;
    modify (set_prev_col 0));;
  (if negb (cur_table_idx =? -1) then
     st ← get;
     when (negb (cur_table_idx =? prev_table_idx st)) (
       emit (Open Table (LF +:+ "    <table") []);;
       emit (Open TBody (LF +:+ "     <tbody") []));;
     row_step y (coords_at (y_coords env) cur_table_idx);;
     col_step x (coords_at (x_coords env) cur_table_idx);;
     emit_all (table_word w)
   else
     when (at_para_start w) (open_paragraph env w);;
     when (at_line_start w) (open_line env w);;
     st ← get;
     emit_all (flow_word (font_info env) st w));;
  modify (set_prev_table_idx cur_table_idx);;
  when (last_word_in_line w && (cur_table_idx =? -1)) (
    emit (Close Line (LF +:+ "     </span>"));;
    modify (λ st, set_lcnt (lcnt st + 1) st));;
  when (last_word_in_para w && (cur_table_idx =? -1)) (
    emit (Close Paragraph (LF +:+ "    </p>" +:+ LF));;
    modify (λ st, set_pcnt (pcnt st + 1) st);;
    modify (set_para_is_ltr true));;
  when (last_word_in_block w) (
    emit (Close Block ("   </div>" +:+ LF));;
    modify (λ st, set_bcnt (bcnt st + 1) st)).

(** Lines 260-587: the [while] loop.  Advancing symbol by symbol to the
    next word start is the step to the next list element. *)
Fixpoint words_loop (env : PageEnv) (words : list Word) : Render unit :=
  match words with
  | [] => mret tt
  | w :: rest =>
      if word_empty w then words_loop env rest              (* continue *)
      else if is_blank (text w) then words_loop env rest    (* continue *)
      else process_word env w;; words_loop env rest
  end.

(** The members of [TessBaseAPI] that [GetAbbyyText] reads.  [page_res_]
    holds the recognised words that [GetIterator()] walks. *)
Record TessBaseAPI := mkApi {
  tesseract_ : bool;                  (* false for a null pointer *)
  page_res_ : option (list Word);
  input_file_ : option string;
  rect_left_ : Z;
  rect_top_ : Z;
  rect_width_ : Z;
  rect_height_ : Z;
  abbyy_font_info : bool
}.

(** [Recognize(monitor)]: [None] for a negative return value, otherwise
    the page results it leaves in [page_res_]. *)
Variable Recognize : TessBaseAPI → option (list Word).

(** [SetInputName(name)], defined in another file of the library: the
    object after the call. *)
Variable SetInputName : option string → TessBaseAPI → TessBaseAPI.

(** The opening of the page element up to the value of [filename]
    (lines 180-183). *)
Definition page_head (page_id : Z) : string :=
  "  <div class='page' id='page_" +:+ show page_id +:+ "' filename='".

(** The [if (input_file_)] branch after [ExtractTableJoints] has
    returned [tables]: lines 189-588. *)
Definition page_markup (api : TessBaseAPI) (page_number : Z) (name : string)
    (tables : list (list (list cv.Point))) (words : list Word) : list markup :=
  let page_id := page_number + 1 in
  let env := {| page_id := page_id; font_info := abbyy_font_info api;
                tables_joints := tables;
                x_coords := Grid.x_coords tables;
                y_coords := Grid.y_coords tables |} in
  [Open Page (page_head page_id +:+ HOcrEscape name +:+ "' ")
        [("left", show (rect_left_ api)); ("top", show (rect_top_ api));
         ("width", show (rect_width_ api)); ("height", show (rect_height_ api));
         ("ppageno", show page_number)];
   Text LF] ++
  (run (words_loop env words) initial_cursor).2 ++
  [Close Page ("  </div>" +:+ LF)].

(** The [else] branch: line 590. *)
Definition unknown_markup (page_number : Z) : list markup :=
  [Text (page_head (page_number + 1) +:+ "unknown")].

Context `{backend : CvBackend}.

(** [GetAbbyyText(monitor, page_number)] as the pieces of its result:
    [Ok None] is the null pointer. *)
Definition GetAbbyyText_markup (api : TessBaseAPI) (page_number : Z)
  : cv_result (option (list markup)) :=
  if negb (tesseract_ api) then Ok None
  else
    match (match page_res_ api with
           | Some words => Some words
           | None => Recognize api
           end) with
    | None => Ok None
    | Some words =>
        let api := match input_file_ api with
                   | None => SetInputName None api
                   | Some _ => api
                   end in
        match input_file_ api with
        | Some name =>
            tables ← TableExtractor.ExtractTableJoints (HOcrEscape name);
            Ok (Some (page_markup api page_number name tables words))
        | None => Ok (Some (unknown_markup page_number))
        end
    end.

Definition GetAbbyyText (api : TessBaseAPI) (page_number : Z)
  : cv_result (option string) :=
  match GetAbbyyText_markup api page_number with
  | Ok (Some out) => Ok (Some (print out))
  | Ok None => Ok None
  | CvException => CvException
  end.

End with_escape.

(** *** A stack-based check of the nesting *)

(** The element names as they appear in the tags. *)
Definition tag_name (e : element) : string :=
  match e with
  | Page | Block => "div"
  | Table => "table"
  | TBody => "tbody"
  | Tr => "tr"
  | Td => "td"
  | Paragraph => "p"
  | Line | WordSpan => "span"
  | Strong => "strong"
  | Em => "em"
  end.

(** Start tags push their name, an end tag must find its own name on top
    and pops it. *)
Fixpoint check_nesting (stack : list string) (out : list markup) : bool :=
  match out with
  | [] => match stack with [] => true | _ => false end
  | Open e _ _ :: out' => check_nesting (tag_name e :: stack) out'
  | Close e _ :: out' =>
      match stack with
      | top :: stack' =>
          if String.eqb top (tag_name e) then check_nesting stack' out'
          else false
      | [] => false
      end
  | Text _ :: out' => check_nesting stack out'
  | Loose _ :: out' => check_nesting stack out'
  end.

Definition well_formed (out : list markup) : bool := check_nesting [] out.

Definition is_open (e : element) (m : markup) : bool :=
  match m with Open e' _ _ => bool_decide (e' = e) | _ => false end.

Definition is_close (e : element) (m : markup) : bool :=
  match m with Close e' _ => bool_decide (e' = e) | _ => false end.

(** How many start tags, and how many end tags, of an element were written. *)
Definition opens (e : element) (out : list markup) : nat :=
  length (List.filter (is_open e) out).

Definition closes (e : element) (out : list markup) : nat :=
  length (List.filter (is_close e) out).

(** *** Well-nested word streams

    The flags of the words that reach the loop body (those neither empty nor
    blank) describe blocks made of paragraphs made of lines: a word starts a
    block, paragraph or line exactly when none is open, the last word of a
    block is the last of its paragraph, the last of a paragraph the last of
    its line, and at the end nothing is open.  No word is both bold and
    italic (the end tags of [strong] and [em] are written in the order of
    their start tags). *)
Definition visible (w : Word) : bool :=
  negb (word_empty w) && negb (is_blank (text w)).

Fixpoint well_nested (in_block in_para in_line : bool) (ws : list Word) : bool :=
  match ws with
  | [] => negb in_block && negb in_para && negb in_line
  | w :: ws' =>
      if visible w then
        eqb (at_block_start w) (negb in_block) &&
        eqb (at_para_start w) (negb in_para) &&
        eqb (at_line_start w) (negb in_line) &&
        implb (last_word_in_block w) (last_word_in_para w) &&
        implb (last_word_in_para w) (last_word_in_line w) &&
        negb (bold w && italic w) &&
        well_nested (negb (last_word_in_block w)) (negb (last_word_in_para w))
                    (negb (last_word_in_line w)) ws'
      else well_nested in_block in_para in_line ws'
  end.

(** The names on the stack inside the page element. *)
Definition open_stack (in_block in_para in_line : bool) : list string :=
  (if in_line then ["span"] else []) ++ (if in_para then ["p"] else []) ++
  (if in_block then ["div"] else []) ++ ["div"].

(** The loop's environment on a page without tables. *)
Definition flow_env (page_id : Z) (font_info : bool) : PageEnv :=
  {| page_id := page_id; font_info := font_info; tables_joints := [];
     x_coords := []; y_coords := [] |}.

(** The tags of the output in order, without their text. *)
Inductive tag_event := Opened (e : element) | Closed (e : element).

Fixpoint tag_events (out : list markup) : list tag_event :=
  match out with
  | [] => []
  | Open e _ _ :: out' => Opened e :: tag_events out'
  | Close e _ :: out' => Closed e :: tag_events out'
  | _ :: out' => tag_events out'
  end.

(** The start tags of word spans and the direction markers of the output,
    in order. *)
Definition is_word_or_marker (m : markup) : bool :=
  match m with
  | Open WordSpan _ _ | Loose _ => true
  | _ => false
  end.

Definition words_and_markers (out : list markup) : list markup :=
  List.filter is_word_or_marker out.

(** A statement that writes neither a word span nor a direction marker. *)
Definition quiet (m : Render unit) : Prop :=
  ∀ st, words_and_markers (run m st).2 = [].

(** A quiet statement that also leaves the paragraph's language and
    direction alone. *)
Definition structural (m : Render unit) : Prop :=
  ∀ st, words_and_markers (run m st).2 = [] ∧
        paragraph_lang (run m st).1 = paragraph_lang st ∧
        para_is_ltr (run m st).1 = para_is_ltr st.

(** A statement that never lowers the row the cursor holds. *)
Definition keeps_row (m : Render unit) : Prop :=
  ∀ st, (prev_row st ≤ prev_row (run m st).1)%nat.

(** The language and direction of the paragraph as the cursor holds them
    when the span of word [w] is written in the text flow, for a loop body
    entered with cursor [st]. *)
Definition tracked_lang (st : Cursor) (w : Word) : option string :=
  if at_para_start w then lang w else paragraph_lang st.

Definition tracked_ltr (st : Cursor) (w : Word) : bool :=
  if at_para_start w then paragraph_is_ltr w
  else if at_block_start w then true
  else para_is_ltr st.

(** *** The word span as the specification describes it (section 6) *)

(** "confidence, dictionary/numeric flags" *)
Definition carries_flags (w : Word) (attrs : list (string * string)) : Prop :=
  ("wordconfidence", show (confidence w)) ∈ attrs ∧
  ("wordfromdictionary", show (bool_int (from_dictionary w))) ∈ attrs ∧
  ("wordnumeric", show (bool_int (numeric w))) ∈ attrs.

(** The output [out] written for word [w] holds a word span that carries
    the flags, the language when it differs from the paragraph's, the font
    name when font output is on, and a direction marker goes with it when
    the word's direction is not the paragraph's. *)
Definition word_span_as_claimed (HOcrEscape : string → string)
    (font_info : bool) (paragraph_lang : option string) (para_is_ltr : bool)
    (w : Word) (out : list markup) : Prop :=
  ∃ lead attrs,
    Open WordSpan lead attrs ∈ out ∧
    carries_flags w attrs ∧
    (∀ l, lang w = Some l → paragraph_lang ≠ Some l → ("lang", l) ∈ attrs) ∧
    (font_info = true → ∀ f, font_name w = Some f →
                              ("font_name", HOcrEscape f) ∈ attrs) ∧
    (direction w = DIR_RIGHT_TO_LEFT → para_is_ltr = true →
     Loose " dir='rtl'" ∈ out) ∧
    (direction w = DIR_LEFT_TO_RIGHT → para_is_ltr = false →
     Loose " dir='ltr'" ∈ out).

End Abbyy.

(** ** Sample inputs *)

Module Samples.

(** A ruled table with corners (0,0) and (10,20): six joints in discovery
    order; the last one found is a blob two pixels high at the bottom
    left. *)
Definition ruled_table : list (list cv.Point) :=
  [ [cv.mkPoint 10 10]; [cv.mkPoint 10 0]; [cv.mkPoint 0 10]; [cv.mkPoint 0 0];
    [cv.mkPoint 10 18]; [cv.mkPoint 0 18; cv.mkPoint 0 20] ].

Definition plain_word (s : string) (b : Abbyy.Box) : Abbyy.Word :=
  {| Abbyy.word_empty := false; Abbyy.text := s;
     Abbyy.at_block_start := false; Abbyy.at_para_start := false;
     Abbyy.at_line_start := false; Abbyy.last_word_in_line := false;
     Abbyy.last_word_in_para := false; Abbyy.last_word_in_block := false;
     Abbyy.block_box := Abbyy.mkBox 0 0 40 40;
     Abbyy.para_box := Abbyy.mkBox 0 0 40 40;
     Abbyy.line_box := Abbyy.mkBox 0 0 40 40;
     Abbyy.word_box := b;
     Abbyy.confidence := 95; Abbyy.from_dictionary := true;
     Abbyy.numeric := false; Abbyy.bold := false; Abbyy.italic := false;
     Abbyy.pointsize := 10; Abbyy.font_name := None; Abbyy.lang := Some "eng";
     Abbyy.direction := Abbyy.DIR_LEFT_TO_RIGHT;
     Abbyy.paragraph_is_ltr := true |}.

(** The only word of a page: it lies in the first cell of [ruled_table]
    (centre (5, 5)) and is first and last of its block, paragraph and
    line. *)
Definition cell_word : Abbyy.Word :=
  let w := plain_word "A" (Abbyy.mkBox 3 3 7 7) in
  {| Abbyy.word_empty := false; Abbyy.text := Abbyy.text w;
     Abbyy.at_block_start := true; Abbyy.at_para_start := true;
     Abbyy.at_line_start := true; Abbyy.last_word_in_line := true;
     Abbyy.last_word_in_para := true; Abbyy.last_word_in_block := true;
     Abbyy.block_box := Abbyy.block_box w; Abbyy.para_box := Abbyy.para_box w;
     Abbyy.line_box := Abbyy.line_box w; Abbyy.word_box := Abbyy.word_box w;
     Abbyy.confidence := 95; Abbyy.from_dictionary := true;
     Abbyy.numeric := false; Abbyy.bold := false; Abbyy.italic := false;
     Abbyy.pointsize := 10; Abbyy.font_name := None; Abbyy.lang := Some "eng";
     Abbyy.direction := Abbyy.DIR_LEFT_TO_RIGHT;
     Abbyy.paragraph_is_ltr := true |}.

(** A French right-to-left word in a known font, in the middle of an
    English left-to-right paragraph, lying in the first cell of
    [ruled_table]. *)
Definition foreign_cell_word : Abbyy.Word :=
  let w := plain_word "B" (Abbyy.mkBox 3 3 7 7) in
  {| Abbyy.word_empty := false; Abbyy.text := Abbyy.text w;
     Abbyy.at_block_start := false; Abbyy.at_para_start := false;
     Abbyy.at_line_start := false; Abbyy.last_word_in_line := false;
     Abbyy.last_word_in_para := false; Abbyy.last_word_in_block := false;
     Abbyy.block_box := Abbyy.block_box w; Abbyy.para_box := Abbyy.para_box w;
     Abbyy.line_box := Abbyy.line_box w; Abbyy.word_box := Abbyy.word_box w;
     Abbyy.confidence := 80; Abbyy.from_dictionary := false;
     Abbyy.numeric := false; Abbyy.bold := false; Abbyy.italic := false;
     Abbyy.pointsize := 10; Abbyy.font_name := Some "Arial";
     Abbyy.lang := Some "fra";
     Abbyy.direction := Abbyy.DIR_RIGHT_TO_LEFT;
     Abbyy.paragraph_is_ltr := true |}.

(** The cursor in the middle of an English left-to-right paragraph of the
    text flow. *)
Definition in_english_paragraph : Abbyy.Cursor :=
  Abbyy.set_paragraph_lang (Some "eng") Abbyy.initial_cursor.

(** The cursor inside the first table with row [n] open. *)
Definition in_table_row (n : nat) : Abbyy.Cursor :=
  Abbyy.set_prev_row n (Abbyy.set_prev_table_idx 0 Abbyy.initial_cursor).

Definition sample_env (font_info : bool) : Abbyy.PageEnv :=
  {| Abbyy.page_id := 1; Abbyy.font_info := font_info;
     Abbyy.tables_joints := [ruled_table];
     Abbyy.x_coords := Grid.x_coords [ruled_table];
     Abbyy.y_coords := Grid.y_coords [ruled_table] |}.

Definition sample_api (name : option string) (words : list Abbyy.Word)
  : Abbyy.TessBaseAPI :=
  {| Abbyy.tesseract_ := true; Abbyy.page_res_ := Some words;
     Abbyy.input_file_ := name;
     Abbyy.rect_left_ := 0; Abbyy.rect_top_ := 0;
     Abbyy.rect_width_ := 40; Abbyy.rect_height_ := 40;
     Abbyy.abbyy_font_info := true |}.

(** A backend for a machine on which no image file can be read: every
    matrix is empty, and the operations that need pixels raise, the way
    OpenCV's filters assert a non-empty source. *)
Definition no_image_backend : CvBackend := {|
  Mat := unit;
  imread := λ _, tt;
  data_is_null := λ _, true;
  channels := λ _, 1;
  cols := λ _, 0;
  rows := λ _, 0;
  cvtColor_BGR2GRAY := λ _, CvException;
  bitwise_not := λ m, Ok m;
  adaptiveThreshold := λ _ _ _ _, CvException;
  getStructuringElement := λ _ _, Ok tt;
  erode := λ _ _, CvException;
  dilate := λ _ _, CvException;
  mat_add := λ _ _, Ok tt;
  bitwise_and := λ _ _, Ok tt;
  findContours_external := λ _, Ok [];
  contourArea := λ _, inject_Z 0;
  approxPolyDP := λ c _ _, c;
  roi_of := λ m _, m;
  locateROI := λ _, cv.mkPoint 0 0;
  findContours_ccomp := λ _, []
|}.

End Samples.

(** ** Cleanly ruled tables *)

Module CleanGrid.

(** No two joint points of the table have coordinates that differ by 1 or 2
    on the axis. *)
Definition clean_axis (coord : cv.Point → Z) (table : list (list cv.Point)) : Prop :=
  ∀ g1 g2 q1 q2, g1 ∈ table → g2 ∈ table → q1 ∈ g1 → q2 ∈ g2 →
                 coord q1 = coord q2 ∨ 3 ≤ Z.abs (coord q1 - coord q2).

End CleanGrid.

(** ** Views of the serialiser's output *)

Module Views.
Import Abbyy.

(** The character data of the output, in order. *)
Definition is_text (m : markup) : bool :=
  match m with Text _ => true | _ => false end.

Definition texts (out : list markup) : list string :=
  flat_map (λ m, match m with Text s => [s] | _ => [] end) out.

(** The tags of the elements around the words: everything but the word
    spans and what is inside them. *)
Definition is_structure (m : markup) : bool :=
  match m with
  | Open e _ _ | Close e _ =>
      match e with
      | WordSpan | Strong | Em => false
      | _ => true
      end
  | _ => false
  end.

(** The tags of tables, table bodies, rows and cells. *)
Definition is_table_tag (m : markup) : bool :=
  match m with
  | Open e _ _ | Close e _ =>
      match e with
      | Table | TBody | Tr | Td => true
      | _ => false
      end
  | _ => false
  end.

(** A statement that writes nothing of what [keep] selects. *)
Definition mute (keep : markup → bool) (m : Render unit) : Prop :=
  ∀ st, List.filter keep (run m st).2 = [].

(** A statement that leaves a component of the cursor as it was. *)
Definition preserves {A} (f : Cursor → A) (m : Render unit) : Prop :=
  ∀ st, f (run m st).1 = f st.

End Views.

(** ** [TessAbbyyRenderer::AddImageHandler] (abbyyrenderer.cpp, lines
    644-651) *)

Module Document.
Import Abbyy.

(** The renderer as [AddImageHandler] sees it.  [TessResultRenderer], its
    base class, is in another file: [imagenum()] is read from the object,
    and the calls of [AppendString] are kept as the list of the strings
    appended so far. *)
Record TessAbbyyRenderer := mkRenderer {
  imagenum : Z;
  font_info_ : bool;
  appended : list string
}.

Definition AppendString (s : string) (r : TessAbbyyRenderer) : TessAbbyyRenderer :=
  {| imagenum := imagenum r; font_info_ := font_info_ r;
     appended := appended r ++ [s] |}.

Section with_api.
Variable HOcrEscape : string → string.
Variable Recognize : TessBaseAPI → option (list Word).
Variable SetInputName : option string → TessBaseAPI → TessBaseAPI.
Context `{backend : CvBackend}.

(** [GetAbbyyText(int page_number)] (lines 128-130) passes a null monitor
    on. *)
Definition GetAbbyyText_page (api : TessBaseAPI) (page_number : Z)
  : cv_result (option string) :=
  GetAbbyyText HOcrEscape Recognize SetInputName api page_number.

(** [AddImageHandler(api)]: the value returned and the renderer after the
    call. *)
Definition AddImageHandler (r : TessAbbyyRenderer) (api : TessBaseAPI)
  : cv_result (bool * TessAbbyyRenderer) :=
  match GetAbbyyText_page api (imagenum r) with
  | CvException => CvException
  | Ok None => Ok (false, r)
  | Ok (Some abbyy) => Ok (true, AppendString abbyy r)
  end.

End with_api.
End Document.

(** ** A sample detection *)

Module DetectionSamples.

(** A backend on which every page image loads and shows one ruled contour
    of area 200 whose cropped joint mask holds the six joints of
    [Samples.ruled_table], found at offset (0, 0). *)
Definition ruled_backend : CvBackend := {|
  Mat := unit;
  imread := λ _, tt;
  data_is_null := λ _, false;
  channels := λ _, 3;
  cols := λ _, 40;
  rows := λ _, 40;
  cvtColor_BGR2GRAY := λ m, Ok m;
  bitwise_not := λ m, Ok m;
  adaptiveThreshold := λ m _ _ _, Ok m;
  getStructuringElement := λ _ _, Ok tt;
  erode := λ m _, Ok m;
  dilate := λ m _, Ok m;
  mat_add := λ m _, Ok m;
  bitwise_and := λ m _, Ok m;
  findContours_external := λ _,
    Ok [[cv.mkPoint 0 0; cv.mkPoint 10 0; cv.mkPoint 10 20; cv.mkPoint 0 20]];
  contourArea := λ _, inject_Z 200;
  approxPolyDP := λ c _ _, c;
  roi_of := λ m _, m;
  locateROI := λ _, cv.mkPoint 0 0;
  findContours_ccomp := λ _, Samples.ruled_table
|}.

(** A word of blanks, flagged as the first and last of its block. *)
Definition blank_word : Abbyy.Word :=
  let w := Samples.cell_word in
  {| Abbyy.word_empty := false; Abbyy.text := "  ";
     Abbyy.at_block_start := true; Abbyy.at_para_start := true;
     Abbyy.at_line_start := true; Abbyy.last_word_in_line := true;
     Abbyy.last_word_in_para := true; Abbyy.last_word_in_block := true;
     Abbyy.block_box := Abbyy.block_box w; Abbyy.para_box := Abbyy.para_box w;
     Abbyy.line_box := Abbyy.line_box w; Abbyy.word_box := Abbyy.word_box w;
     Abbyy.confidence := 95; Abbyy.from_dictionary := false;
     Abbyy.numeric := false; Abbyy.bold := false; Abbyy.italic := false;
     Abbyy.pointsize := 10; Abbyy.font_name := None; Abbyy.lang := Some "eng";
     Abbyy.direction := Abbyy.DIR_NEUTRAL;
     Abbyy.paragraph_is_ltr := true |}.

(** A word in the margin, to the right of [Samples.ruled_table] (centre
    (30, 5)), alone in its block, paragraph and line. *)
Definition margin_word : Abbyy.Word :=
  let w := Samples.cell_word in
  {| Abbyy.word_empty := false; Abbyy.text := "M";
     Abbyy.at_block_start := true; Abbyy.at_para_start := true;
     Abbyy.at_line_start := true; Abbyy.last_word_in_line := true;
     Abbyy.last_word_in_para := true; Abbyy.last_word_in_block := true;
     Abbyy.block_box := Abbyy.block_box w; Abbyy.para_box := Abbyy.para_box w;
     Abbyy.line_box := Abbyy.line_box w;
     Abbyy.word_box := Abbyy.mkBox 28 3 32 7;
     Abbyy.confidence := 95; Abbyy.from_dictionary := true;
     Abbyy.numeric := false; Abbyy.bold := false; Abbyy.italic := false;
     Abbyy.pointsize := 10; Abbyy.font_name := None; Abbyy.lang := Some "eng";
     Abbyy.direction := Abbyy.DIR_LEFT_TO_RIGHT;
     Abbyy.paragraph_is_ltr := true |}.

End DetectionSamples.

(** ** Facts about the grid builder *)

Module GridFacts.
Import Grid.

Lemma far_sym a b : far a b → far b a.
Proof. unfold far. lia. Qed.

Lemma near_any_false acc c : near_any acc c = false ↔ Forall (λ a, far a c) acc.
Proof.
  induction acc as [|a acc IH]; simpl.
  - split; [constructor | done].
  - destruct (Z.ltb_spec (Z.abs (a - c)) 3) as [Hlt|Hge].
    + split; [done|]. inversion 1; subst. unfold far in *. lia.
    + rewrite IH. split.
      * intros H. by constructor.
      * by inversion 1.
Qed.

Lemma near_any_spec_fresh acc c : near_any acc c = negb (spec_fresh acc c).
Proof.
  induction acc as [|a acc IH]; simpl; [done|].
  destruct (Z.ltb_spec (Z.abs (a - c)) 3), (Z.leb_spec 3 (Z.abs (a - c)));
    simpl; try lia; done.
Qed.

(** Carrying [stop] across the points of a group changes nothing: it is
    still [false] whenever the next point is reached. *)
Lemma scan_group_y_spec pts ys : scan_group_y pts false ys = spec_group cv.y pts ys.
Proof.
  revert ys. induction pts as [|p pts IH]; intros ys; simpl; [done|].
  rewrite near_any_spec_fresh.
  destruct (spec_fresh ys (cv.y p)); simpl; [apply IH | done].
Qed.

Lemma scan_group_x_spec pts xs : scan_group_x pts xs = spec_group cv.x pts xs.
Proof.
  revert xs. induction pts as [|p pts IH]; intros xs; simpl; [done|].
  rewrite near_any_spec_fresh.
  destruct (spec_fresh xs (cv.x p)); simpl; [apply IH | done].
Qed.

(** The downward index loop visits the first [n] groups last to first. *)
Lemma scan_groups_x_take table n acc :
  (n ≤ length table)%nat →
  scan_groups_x table n acc
  = foldl (λ acc g, spec_group cv.x g acc) acc (reverse (take n table)).
Proof.
  revert acc. induction n as [|n IH]; intros acc Hn; [done|].
  destruct (lookup_lt_is_Some_2 table n) as [g Hg]; [lia|].
  cbn [scan_groups_x]. rewrite Hg, (take_S_r _ _ _ Hg), reverse_snoc.
  cbn [foldl]. rewrite scan_group_x_spec. apply IH. lia.
Qed.

Lemma scan_groups_y_take table n acc :
  (n ≤ length table)%nat →
  scan_groups_y table n acc
  = foldl (λ acc g, spec_group cv.y g acc) acc (reverse (take n table)).
Proof.
  revert acc. induction n as [|n IH]; intros acc Hn; [done|].
  destruct (lookup_lt_is_Some_2 table n) as [g Hg]; [lia|].
  cbn [scan_groups_y]. rewrite Hg, (take_S_r _ _ _ Hg), reverse_snoc.
  cbn [foldl]. rewrite scan_group_y_spec. apply IH. lia.
Qed.

(** *** Separation of the accumulated coordinates *)

Lemma separated_snoc acc c :
  separated acc → Forall (λ a, far a c) acc → separated (acc ++ [c]).
Proof.
  induction 1 as [|a l Hal Hl IH]; intros Hc; simpl.
  - repeat constructor.
  - inversion Hc; subst. constructor; [|by apply IH].
    apply Forall_app; split; [done|]. by repeat constructor.
Qed.

Lemma spec_group_separated coord pts acc :
  separated acc → separated (spec_group coord pts acc).
Proof.
  revert acc. induction pts as [|p pts IH]; intros acc Hacc; simpl; [done|].
  destruct (spec_fresh acc (coord p)) eqn:Hfresh; [|done].
  apply IH, separated_snoc; [done|].
  apply near_any_false. rewrite near_any_spec_fresh, Hfresh. done.
Qed.

Lemma spec_groups_separated coord groups acc :
  separated acc →
  separated (foldl (λ acc g, spec_group coord g acc) acc groups).
Proof.
  revert acc. induction groups as [|g groups IH]; intros acc Hacc; simpl.
  - done.
  - by apply IH, spec_group_separated.
Qed.

Lemma separated_Permutation l k : l ≡ₚ k → separated l → separated k.
Proof.
  induction 1 as [|a l k Hlk IH|a b l|l k m _ IH1 _ IH2]; intros Hsep.
  - done.
  - inversion Hsep; subst. constructor; [by rewrite <-Hlk | by apply IH].
  - inversion Hsep as [|? ? Hb Hsep']; subst.
    inversion Hb; subst. inversion Hsep'; subst.
    constructor; [constructor; [by apply far_sym | done]|by constructor].
  - by apply IH2, IH1.
Qed.

(** A sorted list without near neighbours climbs by at least the tolerance
    at every step. *)
Lemma sorted_separated_gap l :
  StronglySorted Z.le l → separated l → StronglySorted (λ a b, a + 3 ≤ b) l.
Proof.
  induction 1 as [|a l Hl IH Hal]; intros Hsep; [constructor|].
  inversion Hsep as [|? ? Hfar Hsep']; subst. constructor; [by apply IH|].
  rewrite Forall_forall in *. intros b Hb.
  specialize (Hal b Hb). specialize (Hfar b Hb). unfold far in Hfar. lia.
Qed.

Lemma sort_sorted l : StronglySorted Z.le (sort l).
Proof. apply (StronglySorted_merge_sort Z.le). Qed.

Lemma sort_Permutation l : sort l ≡ₚ l.
Proof. apply (merge_sort_Permutation Z.le). Qed.

(** [std::sort] fixes its result: every ascending rearrangement of [l] is
    [sort l], so the choice of sorting algorithm does not show. *)
Lemma sort_unique l k : k ≡ₚ l → StronglySorted Z.le k → sort l = k.
Proof.
  intros Hperm Hk. apply (StronglySorted_unique Z.le); [apply sort_sorted|done|].
  by rewrite sort_Permutation.
Qed.

Lemma spec_axis_gap coord table :
  StronglySorted (λ a b, a + 3 ≤ b) (spec_axis coord table).
Proof.
  apply sorted_separated_gap; [apply sort_sorted|].
  eapply separated_Permutation; [symmetry; apply sort_Permutation|].
  apply spec_groups_separated. constructor.
Qed.

Lemma StronglySorted_lookup {A} (R : relation A) l i j a b :
  StronglySorted R l → (i < j)%nat → l !! i = Some a → l !! j = Some b → R a b.
Proof.
  intros Hl. revert i j. induction Hl as [|c l Hl IH Hc]; intros i j Hij Hi Hj.
  - done.
  - destruct j as [|j]; [lia|]. destruct i as [|i]; simpl in *.
    + injection Hi as ->. rewrite Forall_forall in Hc.
      apply Hc. by eapply list_elem_of_lookup_2.
    + apply (IH i j); [lia|done..].
Qed.

Lemma StronglySorted_weaken {A} (R S : relation A) l :
  (∀ a b, R a b → S a b) → StronglySorted R l → StronglySorted S l.
Proof.
  intros HRS. induction 1 as [|a l Hl IH Ha]; constructor; [done|].
  eapply Forall_impl; [exact Ha | by intros; apply HRS].
Qed.

Lemma x_grid_spec table : x_grid table = spec_axis cv.x table.
Proof.
  unfold x_grid, spec_axis. by rewrite scan_groups_x_take, firstn_all.
Qed.

Lemma y_grid_spec table : y_grid table = spec_axis cv.y table.
Proof.
  unfold y_grid, spec_axis. by rewrite scan_groups_y_take, firstn_all.
Qed.

(** C5.  The x- and y-boundaries of every table's grid are strictly
    increasing after sorting, and two boundaries of one axis at distinct
    positions differ by at least the merge tolerance of 3 pixels. *)
Theorem grid_strictly_increasing_with_gaps (table : list (list cv.Point)) :
  StronglySorted Z.lt (x_grid table) ∧
  StronglySorted Z.lt (y_grid table) ∧
  (∀ i j a b, i ≠ j → x_grid table !! i = Some a → x_grid table !! j = Some b →
              3 ≤ Z.abs (a - b)) ∧
  (∀ i j a b, i ≠ j → y_grid table !! i = Some a → y_grid table !! j = Some b →
              3 ≤ Z.abs (a - b)).
Proof.
  rewrite x_grid_spec, y_grid_spec.
  assert (∀ coord, StronglySorted Z.lt (spec_axis coord table)) as Hlt.
  { intros coord. eapply StronglySorted_weaken, spec_axis_gap.
    intros a b. simpl. lia. }
  assert (∀ coord i j a b, i ≠ j →
            spec_axis coord table !! i = Some a →
            spec_axis coord table !! j = Some b → 3 ≤ Z.abs (a - b)) as Hgap.
  { intros coord i j a b Hij Hi Hj.
    pose proof (spec_axis_gap coord table) as Hs.
    destruct (decide (i < j)%nat).
    - pose proof (StronglySorted_lookup _ _ i j a b Hs) as H.
      simpl in H. specialize (H ltac:(done) Hi Hj). lia.
    - pose proof (StronglySorted_lookup _ _ j i b a Hs) as H.
      simpl in H. specialize (H ltac:(lia) Hj Hi). lia. }
  repeat split; [apply Hlt..|apply Hgap|apply Hgap].
Qed.

(** C6.  On each axis the grid is what the reference algorithm computes:
    joint groups taken in reverse discovery order, the points of a group
    scanned in order and accumulated while they are at least 3 pixels from
    everything accumulated so far, the group abandoned at the first
    within-tolerance duplicate, and the result sorted ascending. *)
Theorem grid_is_reference_algorithm (table : list (list cv.Point)) :
  x_grid table = spec_axis cv.x table ∧ y_grid table = spec_axis cv.y table.
Proof. split; [apply x_grid_spec | apply y_grid_spec]. Qed.

End GridFacts.

(** ** Facts about table membership *)

Module MembershipFacts.
Import Membership.

Lemma flatten_is_concat (table : list (list cv.Point)) acc :
  foldl (λ new_table it, new_table ++ it) acc table = acc ++ concat table.
Proof.
  revert acc. induction table as [|g table IH]; intros acc; simpl.
  - by rewrite app_nil_r.
  - by rewrite IH, app_assoc.
Qed.

(** *** The bounding rectangle of a point set *)

Lemma min_of_le_init f m pts : cv.min_of f m pts ≤ m.
Proof.
  revert m. induction pts as [|p pts IH]; intros m; simpl; [lia|].
  specialize (IH (if f p <? m then f p else m)).
  destruct (Z.ltb_spec (f p) m); lia.
Qed.

Lemma min_of_le f m pts p : p ∈ pts → cv.min_of f m pts ≤ f p.
Proof.
  revert m. induction pts as [|q pts IH]; intros m Hp; simpl.
  - by apply elem_of_nil in Hp.
  - apply elem_of_cons in Hp as [->|Hp]; [|by apply IH].
    pose proof (min_of_le_init f (if f q <? m then f q else m) pts).
    destruct (Z.ltb_spec (f q) m); lia.
Qed.

Lemma min_of_attained f m pts :
  cv.min_of f m pts = m ∨ ∃ p, p ∈ pts ∧ cv.min_of f m pts = f p.
Proof.
  revert m. induction pts as [|q pts IH]; intros m; simpl; [by left|].
  destruct (IH (if f q <? m then f q else m)) as [Heq|(p & Hp & Heq)].
  - rewrite Heq. destruct (Z.ltb_spec (f q) m); [|by left].
    right. exists q. split; [apply list_elem_of_here|done].
  - right. exists p. split; [by apply list_elem_of_further|done].
Qed.

Lemma max_of_ge_init f m pts : m ≤ cv.max_of f m pts.
Proof.
  revert m. induction pts as [|p pts IH]; intros m; simpl; [lia|].
  specialize (IH (if m <? f p then f p else m)).
  destruct (Z.ltb_spec m (f p)); lia.
Qed.

Lemma max_of_ge f m pts p : p ∈ pts → f p ≤ cv.max_of f m pts.
Proof.
  revert m. induction pts as [|q pts IH]; intros m Hp; simpl.
  - by apply elem_of_nil in Hp.
  - apply elem_of_cons in Hp as [->|Hp]; [|by apply IH].
    pose proof (max_of_ge_init f (if m <? f q then f q else m) pts).
    destruct (Z.ltb_spec m (f q)); lia.
Qed.

Lemma max_of_attained f m pts :
  cv.max_of f m pts = m ∨ ∃ p, p ∈ pts ∧ cv.max_of f m pts = f p.
Proof.
  revert m. induction pts as [|q pts IH]; intros m; simpl; [by left|].
  destruct (IH (if m <? f q then f q else m)) as [Heq|(p & Hp & Heq)].
  - rewrite Heq. destruct (Z.ltb_spec m (f q)); [|by left].
    right. exists q. split; [apply list_elem_of_here|done].
  - right. exists p. split; [by apply list_elem_of_further|done].
Qed.

(** On one axis: between the minimum and the maximum of a non-empty set
    exactly when between two of its points. *)
Lemma between_extremes f p pts c :
  cv.min_of f (f p) pts ≤ c ∧ c ≤ cv.max_of f (f p) pts ↔
  (∃ q, q ∈ p :: pts ∧ f q ≤ c) ∧ (∃ q, q ∈ p :: pts ∧ c ≤ f q).
Proof.
  split.
  - intros [Hmin Hmax]. split.
    + destruct (min_of_attained f (f p) pts) as [Heq|(q & Hq & Heq)].
      * exists p. split; [apply list_elem_of_here|lia].
      * exists q. split; [by apply list_elem_of_further|lia].
    + destruct (max_of_attained f (f p) pts) as [Heq|(q & Hq & Heq)].
      * exists p. split; [apply list_elem_of_here|lia].
      * exists q. split; [by apply list_elem_of_further|lia].
  - intros [(q1 & Hq1 & Hle1) (q2 & Hq2 & Hle2)]. split.
    + apply elem_of_cons in Hq1 as [->|Hq1].
      * pose proof (min_of_le_init f (f p) pts). lia.
      * pose proof (min_of_le f (f p) pts q1 Hq1). lia.
    + apply elem_of_cons in Hq2 as [->|Hq2].
      * pose proof (max_of_ge_init f (f p) pts). lia.
      * pose proof (max_of_ge f (f p) pts q2 Hq2). lia.
Qed.

(** [boundingRect] followed by [contains] is the inclusive test: the [+ 1]
    in the rectangle's width and height makes up for the open right and
    bottom sides of [contains]. *)
Lemma contains_boundingRect x y pts :
  cv.contains (cv.boundingRect pts) (cv.mkPoint x y) = true ↔
  in_bounding_rect_inclusive x y pts.
Proof.
  unfold in_bounding_rect_inclusive. destruct pts as [|p pts].
  - simpl. unfold cv.contains. simpl. split.
    + rewrite !andb_true_iff, Z.leb_le, Z.ltb_lt. lia.
    + intros ((q & Hq & _) & _). by apply elem_of_nil in Hq.
  - pose proof (between_extremes cv.x p pts x) as Hx.
    pose proof (between_extremes cv.y p pts y) as Hy.
    unfold cv.contains, cv.boundingRect. cbn [cv.rx cv.ry cv.width cv.height cv.x cv.y].
    rewrite !andb_true_iff, !Z.leb_le, !Z.ltb_lt.
    cbn [cv.x cv.y] in Hx, Hy. split.
    + intros [[[H1 H2] H3] H4].
      destruct Hx as [Hx _], Hy as [Hy _].
      destruct Hx as [? ?]; [lia|]. destruct Hy as [? ?]; [lia|]. done.
    + intros (H1 & H2 & H3 & H4).
      destruct Hx as [_ Hx], Hy as [_ Hy].
      specialize (Hx (conj H1 H2)). specialize (Hy (conj H3 H4)). lia.
Qed.

Lemma IsPointInsideTable_inclusive x y (table : list (list cv.Point)) :
  IsPointInsideTable_xy x y table = true ↔
  in_bounding_rect_inclusive x y (concat table).
Proof.
  unfold IsPointInsideTable_xy, IsPointInsideTable.
  rewrite flatten_is_concat. simpl. apply contains_boundingRect.
Qed.

Lemma find_table_from_spec x y (tables : list (list (list cv.Point))) k :
  (find_table_from x y tables k = -1 ∧
   ∀ table, table ∈ tables → ¬ in_bounding_rect_inclusive x y (concat table))
  ∨ (∃ (n : nat) table,
       find_table_from x y tables k = Z.of_nat (k + n) ∧
       tables !! n = Some table ∧
       in_bounding_rect_inclusive x y (concat table) ∧
       ∀ (m : nat) table', (m < n)%nat → tables !! m = Some table' →
          ¬ in_bounding_rect_inclusive x y (concat table')).
Proof.
  revert k. induction tables as [|t tables IH]; intros k; simpl.
  - left. split; [done|]. intros table Ht. by apply elem_of_nil in Ht.
  - destruct (IsPointInsideTable_xy x y t) eqn:Hin.
    + right. exists O, t. rewrite Nat.add_0_r.
      apply IsPointInsideTable_inclusive in Hin.
      split; [done|]. split; [done|]. split; [done|]. intros m ? Hm. lia.
    + assert (¬ in_bounding_rect_inclusive x y (concat t)) as Hout.
      { rewrite <-IsPointInsideTable_inclusive, Hin. done. }
      destruct (IH (S k)) as [[Heq Hnone]|(n & table & Heq & Hn & Hin' & Hfirst)].
      * left. split; [done|]. intros table Ht.
        apply elem_of_cons in Ht as [->|Ht]; [done|by apply Hnone].
      * right. exists (S n), table.
        split; [rewrite Heq; f_equal; lia|]. split; [done|]. split; [done|].
        intros [|m] table' Hm Hlook; simpl in Hlook.
        -- by injection Hlook as <-.
        -- apply (Hfirst m); [lia|done].
Qed.

(** C4.  For every point and every list of table regions, the membership
    loop answers with the index of the first region, in list order, whose
    bounding rectangle over all the region's joint points contains the
    point, all four edges included, and with -1 ("none") when no region's
    rectangle contains it. *)
Theorem membership_is_first_containing_region
    (x y : Z) (tables : list (list (list cv.Point))) :
  first_region_containing x y tables (find_table x y tables).
Proof.
  unfold first_region_containing, find_table.
  destruct (find_table_from_spec x y tables 0)
    as [[Heq Hnone]|(n & table & Heq & Hn & Hin & Hfirst)].
  - left. done.
  - right. exists n, table. done.
Qed.

End MembershipFacts.

(** ** Facts about the row and column scans *)

Module ScanFacts.
Import Membership.

Lemma first_above_None c rest k :
  first_above c rest k = None ↔ Forall (λ b, b ≤ c) rest.
Proof.
  revert k. induction rest as [|b rest IH]; intros k; simpl.
  - split; [constructor|done].
  - destruct (Z.ltb_spec c b).
    + split; [done|]. inversion 1; subst. lia.
    + rewrite IH. split; [by constructor|by inversion 1].
Qed.

Lemma first_above_Some c rest k i :
  first_above c rest k = Some i ↔
  ∃ j : nat, i = (k + j)%nat ∧ (∃ b, rest !! j = Some b ∧ c < b) ∧
             ∀ (j' : nat) b', (j' < j)%nat → rest !! j' = Some b' → b' ≤ c.
Proof.
  revert k. induction rest as [|b rest IH]; intros k; simpl.
  - split; [done|]. intros (j & _ & (b & Hb & _) & _). done.
  - destruct (Z.ltb_spec c b) as [Hlt|Hge].
    + split.
      * intros [= <-]. exists O. split; [lia|]. split; [by exists b|].
        intros j' b' Hj'. lia.
      * intros (j & -> & (b0 & Hb0 & Hc) & Hmin). destruct j as [|j].
        { f_equal. lia. }
        specialize (Hmin O b ltac:(lia) eq_refl). lia.
    + rewrite IH. split.
      * intros (j & -> & (b0 & Hb0 & Hc) & Hmin). exists (S j).
        split; [lia|]. split; [by exists b0|].
        intros [|j'] b' Hj' Hlook; simpl in Hlook.
        -- injection Hlook as <-. done.
        -- apply (Hmin j'); [lia|done].
      * intros (j & -> & (b0 & Hb0 & Hc) & Hmin). destruct j as [|j].
        { simpl in Hb0. injection Hb0 as <-. lia. }
        exists j. split; [lia|]. split; [by exists b0|].
        intros j' b' Hj' Hlook. apply (Hmin (S j')); [lia|done].
Qed.

Lemma find_boundary_Some c coords i :
  find_boundary c coords = Some i ↔ smallest_boundary_above c coords i.
Proof.
  unfold find_boundary, smallest_boundary_above. rewrite first_above_Some.
  split.
  - intros (j & -> & (b & Hb & Hc) & Hmin).
    rewrite lookup_drop in Hb. split; [lia|]. split; [by exists b|].
    intros j' b' H1 Hj' Hlook. destruct j' as [|j']; [lia|].
    apply (Hmin j'); [lia|]. by rewrite lookup_drop.
  - intros (Hi & (b & Hb & Hc) & Hmin). destruct i as [|i]; [lia|].
    exists i. split; [lia|]. split.
    + exists b. by rewrite lookup_drop.
    + intros j' b' Hj' Hlook. rewrite lookup_drop in Hlook.
      apply (Hmin (1 + j')%nat); [lia|lia|done].
Qed.

Lemma find_boundary_positive c coords i :
  find_boundary c coords = Some i → i ≠ O.
Proof. rewrite find_boundary_Some. intros [? _]. lia. Qed.

(** [cur_row] is not 0 exactly when the scan hit, and is then the hit. *)
Lemma cur_index_hit c coords i :
  cur_index c coords = i ∧ i ≠ O ↔ find_boundary c coords = Some i.
Proof.
  unfold cur_index. split.
  - intros [<- Hi]. destruct (find_boundary c coords); [done|]. done.
  - intros Hf. rewrite Hf. split; [done|]. by eapply find_boundary_positive.
Qed.

Lemma sorted_le_last l a b :
  StronglySorted Z.le l → a ∈ l → last l = Some b → a ≤ b.
Proof.
  intros Hl Ha Hb. apply list_elem_of_lookup in Ha as [i Hi].
  rewrite last_lookup in Hb.
  destruct (decide (i = Nat.pred (length l))) as [->|Hne].
  - rewrite Hi in Hb. injection Hb as ->. lia.
  - apply lookup_lt_Some in Hi as Hlt.
    apply (GridFacts.StronglySorted_lookup Z.le l i (Nat.pred (length l)));
      [done|lia|done..].
Qed.

(** At or beyond the last boundary of a sorted axis the scan finds
    nothing. *)
Lemma find_boundary_beyond_last c coords b :
  StronglySorted Z.le coords → last coords = Some b → b ≤ c →
  find_boundary c coords = None.
Proof.
  intros Hs Hlast Hb. unfold find_boundary. apply first_above_None.
  apply Forall_forall. intros a Ha.
  assert (a ∈ coords) as Ha'.
  { apply list_elem_of_lookup in Ha as [i Hi]. rewrite lookup_drop in Hi.
    by eapply list_elem_of_lookup_2. }
  pose proof (sorted_le_last coords a b Hs Ha' Hlast). lia.
Qed.

Lemma row_step_miss y coords st :
  find_boundary y coords = None →
  Abbyy.run (Abbyy.row_step y coords) st = (st, []).
Proof. intros H. unfold Abbyy.row_step. by rewrite H. Qed.

Lemma col_step_miss x coords st :
  find_boundary x coords = None →
  Abbyy.run (Abbyy.col_step x coords) st = (st, []).
Proof. intros H. unfold Abbyy.col_step. by rewrite H. Qed.

(** The scans of table [n] run over that table's grid. *)
Lemma coords_at_y_grid (tables : list (list (list cv.Point))) (n : nat) table :
  tables !! n = Some table →
  Abbyy.coords_at (Grid.y_coords tables) (Z.of_nat n) = Grid.y_grid table.
Proof.
  intros H. unfold Abbyy.coords_at, Grid.y_coords.
  by rewrite Nat2Z.id, list_lookup_fmap, H.
Qed.

Lemma coords_at_x_grid (tables : list (list (list cv.Point))) (n : nat) table :
  tables !! n = Some table →
  Abbyy.coords_at (Grid.x_coords tables) (Z.of_nat n) = Grid.x_grid table.
Proof.
  intros H. unfold Abbyy.coords_at, Grid.x_coords.
  by rewrite Nat2Z.id, list_lookup_fmap, H.
Qed.

Lemma grid_sorted_le (table : list (list cv.Point)) :
  StronglySorted Z.le (Grid.x_grid table) ∧ StronglySorted Z.le (Grid.y_grid table).
Proof. split; apply GridFacts.sort_sorted. Qed.

(** C3.  For a point resolved to a table, the row index [cur_row] is the
    smallest index [i >= 1] into the table's sorted y-boundaries with
    [y < y_coords[i]], and the column index [cur_col] likewise on the
    x-boundaries.  When the coordinate is at or beyond the last boundary of
    an axis the index stays 0, and the scan writes nothing and leaves the
    cursor as it was: no row (or cell) is opened. *)
Theorem index_is_smallest_boundary_above (table : list (list cv.Point)) (x y : Z) :
  (∀ i, cur_index y (Grid.y_grid table) = i ∧ i ≠ O ↔
        smallest_boundary_above y (Grid.y_grid table) i) ∧
  (∀ i, cur_index x (Grid.x_grid table) = i ∧ i ≠ O ↔
        smallest_boundary_above x (Grid.x_grid table) i) ∧
  (∀ b, last (Grid.y_grid table) = Some b → b ≤ y →
        cur_index y (Grid.y_grid table) = O ∧
        ∀ st, Abbyy.run (Abbyy.row_step y (Grid.y_grid table)) st = (st, [])) ∧
  (∀ b, last (Grid.x_grid table) = Some b → b ≤ x →
        cur_index x (Grid.x_grid table) = O ∧
        ∀ st, Abbyy.run (Abbyy.col_step x (Grid.x_grid table)) st = (st, [])).
Proof.
  destruct (grid_sorted_le table) as [Hxs Hys].
  split; [|split; [|split]].
  - intros i. by rewrite cur_index_hit, find_boundary_Some.
  - intros i. by rewrite cur_index_hit, find_boundary_Some.
  - intros b Hlast Hb.
    pose proof (find_boundary_beyond_last y _ b Hys Hlast Hb) as Hnone.
    split; [unfold cur_index; by rewrite Hnone|].
    intros st. by apply row_step_miss.
  - intros b Hlast Hb.
    pose proof (find_boundary_beyond_last x _ b Hxs Hlast Hb) as Hnone.
    split; [unfold cur_index; by rewrite Hnone|].
    intros st. by apply col_step_miss.
Qed.

(** *** Monotonicity of the assigned indices *)

Lemma cur_index_monotone (coords : list Z) (c1 c2 : Z) :
  c1 ≤ c2 → cur_index c2 coords ≠ O →
  (cur_index c1 coords ≤ cur_index c2 coords)%nat.
Proof.
  intros Hle Hhit.
  destruct (find_boundary c2 coords) as [i2|] eqn:H2;
    [|unfold cur_index in Hhit; by rewrite H2 in Hhit].
  assert (cur_index c2 coords = i2) as -> by (unfold cur_index; by rewrite H2).
  apply find_boundary_Some in H2 as (Hi2 & (b2 & Hb2 & Hc2) & _).
  destruct (find_boundary c1 coords) as [i1|] eqn:H1;
    [|unfold cur_index; rewrite H1; simpl; lia].
  assert (cur_index c1 coords = i1) as -> by (unfold cur_index; by rewrite H1).
  apply find_boundary_Some in H1 as (Hi1 & _ & Hmin1).
  destruct (decide (i1 ≤ i2)%nat) as [|Hgt]; [done|].
  specialize (Hmin1 i2 b2 Hi2 ltac:(lia) Hb2). lia.
Qed.

(** C8, as amended.  Inside one table, for two words met in that order: if
    the centres do not decrease in y and the later word has a row (its
    centre is above some y-boundary, so its index is not 0), the row index
    does not decrease; if both are in the same row, the centres do not
    decrease in x and the later word has a column, the column index does
    not decrease. *)
Theorem indices_monotone_for_assigned_words (tables : list (list (list cv.Point))) :
  indices_monotone_when_assigned tables (Grid.x_coords tables) (Grid.y_coords tables).
Proof.
  intros n x1 y1 x2 y2 _ _ ys xs. split.
  - apply cur_index_monotone.
  - intros _. apply cur_index_monotone.
Qed.

Lemma indices_monotone_for_assigned_words_witness :
  (cur_index 5 (Grid.y_grid Samples.ruled_table)
   ≤ cur_index 15 (Grid.y_grid Samples.ruled_table))%nat ∧
  (cur_index 4 (Grid.x_grid Samples.ruled_table)
   ≤ cur_index 6 (Grid.x_grid Samples.ruled_table))%nat.
Proof.
  destruct (indices_monotone_for_assigned_words [Samples.ruled_table]
              O 5 5 5 15 eq_refl eq_refl) as [Hrow _].
  destruct (indices_monotone_for_assigned_words [Samples.ruled_table]
              O 4 5 6 5 eq_refl eq_refl) as [_ Hcol].
  split.
  - apply Hrow; [lia | vm_compute; lia].
  - apply Hcol; [reflexivity | lia | vm_compute; lia].
Defined.

Example ruled_table_grid :
  Grid.x_grid Samples.ruled_table = [0; 10] ∧
  Grid.y_grid Samples.ruled_table = [0; 10; 18].
Proof. split; reflexivity. Qed.

(** Two words of the sample table, one above the other: rows 1 and 2. *)
Example ruled_table_rows_1_2 :
  find_table 5 5 [Samples.ruled_table] = 0 ∧
  find_table 5 15 [Samples.ruled_table] = 0 ∧
  cur_index 5 (Grid.y_grid Samples.ruled_table) = 1%nat ∧
  cur_index 15 (Grid.y_grid Samples.ruled_table) = 2%nat.
Proof. repeat split; reflexivity. Qed.

(** C8, as stated, fails: in the sample table the joint at the bottom edge
    (y = 20) is within the tolerance of the boundary 18 and never becomes a
    boundary.  A word centred at (5, 5) gets row 1; the next word, centred
    at (5, 19), is still inside the table's rectangle but not above any
    boundary, and gets row 0. *)
Lemma row_index_decreases_beyond_last_boundary :
  ¬ indices_monotone_within [Samples.ruled_table]
      (Grid.x_coords [Samples.ruled_table]) (Grid.y_coords [Samples.ruled_table]).
Proof.
  intros H.
  destruct (H O 5 5 5 19 eq_refl eq_refl) as [Hrow _].
  specialize (Hrow ltac:(lia)). vm_compute in Hrow. lia.
Qed.

End ScanFacts.

(** ** Facts about the table detector *)

Module TableExtractorFacts.
Section with_backend.
Context `{backend : CvBackend}.
Import TableExtractor.

Lemma tables_loop_spec joints contours acc :
tables_loop joints contours acc = acc ++ spec_regions joints contours.
Proof.
revert acc. induction contours as [|c contours IH]; intros acc.
- unfold spec_regions. simpl. by rewrite app_nil_r.
- cbn [tables_loop]. unfold spec_regions.
  destruct (accepted joints c) eqn:Hacc.
  + rewrite filter_cons_True by done.
    unfold accepted, joints_contours_of in Hacc.
    apply andb_true_iff in Hacc as [H1 H2].
    apply negb_true_iff in H1, H2. rewrite H1, H2, IH, fmap_cons.
    unfold spec_regions, region_of, offset_of, joints_contours_of.
    by rewrite <-app_assoc.
  + rewrite filter_cons_False by (by rewrite Hacc).
    unfold accepted, joints_contours_of in Hacc.
    destruct (area_below_50 c); [apply IH|].
    simpl in Hacc. apply negb_false_iff in Hacc. rewrite Hacc. apply IH.
Qed.

(** [area < 50] is the comparison of rationals. *)
Lemma area_below_50_iff contour :
  area_below_50 contour = true ↔ (contourArea contour < inject_Z 50)%Q.
Proof.
  unfold area_below_50. rewrite negb_true_iff. split.
  - intros H. apply Qnot_le_lt. intros Hle.
    apply Qle_bool_iff in Hle. congruence.
  - intros H. destruct (Qle_bool _ _) eqn:Hle; [|done].
    apply Qle_bool_iff in Hle. by apply Qlt_not_le in H.
Qed.

(** A contour is kept exactly when its area is at least 50 and more than
    four joints are found in its rectangle. *)
Lemma accepted_iff joints contour :
  accepted joints contour = true ↔
  ¬ (contourArea contour < inject_Z 50)%Q ∧
  (4 < length (joints_contours_of joints contour))%nat.
Proof.
  unfold accepted.
  rewrite andb_true_iff, !negb_true_iff, Nat.leb_gt, <-area_below_50_iff.
  destruct (area_below_50 contour); split; intros [H1 H2]; split;
    congruence || done.
Qed.

(** C7.  The detector returns, in discovery order, one region for every
    contour of the combined line mask that is kept and nothing else.  A
    contour is dropped when its area is below 50, and dropped when 4 or fewer
    joint contours are found in the joint mask cropped to its bounding
    rectangle; it is kept otherwise.  The region of a kept contour is its
    joint contours with every point moved by the offset of the cropped mask
    inside the page. *)
Theorem ExtractTableJoints_keeps_accepted_candidates (filename : string) :
  ExtractTableJoints filename =
    match line_masks filename with
    | Ok (joints, contours) =>
        Ok (region_of joints <$>
              filter (λ contour, accepted joints contour = true) contours)
    | CvException => CvException
    end ∧
  (∀ joints contour,
     accepted joints contour = true ↔
     ¬ (contourArea contour < inject_Z 50)%Q ∧
     (4 < length (joints_contours_of joints contour))%nat) ∧
  (∀ joints contour,
     region_of joints contour =
     map (map (λ p, cv.mkPoint (cv.x p + cv.x (offset_of joints contour))
                               (cv.y p + cv.y (offset_of joints contour))))
         (joints_contours_of joints contour)).
Proof.
  split; [|split; [apply accepted_iff|done]].
  unfold ExtractTableJoints.
  destruct (line_masks filename) as [[joints contours]|]; [|done].
  simpl. f_equal. apply tables_loop_spec.
Qed.

End with_backend.

(** With no table region every point resolves to "none". *)
Lemma no_tables_no_membership x y : Membership.find_table x y [] = -1.
Proof. reflexivity. Qed.

End TableExtractorFacts.

(** ** Facts about the serialiser *)

Module AbbyyFacts.
Import Abbyy.

Lemma append_assoc (s1 s2 s3 : string) :
  s1 +:+ s2 +:+ s3 = (s1 +:+ s2) +:+ s3.
Proof.
  induction s1 as [|c s1 IH]; [done|].
  change (String c (s1 +:+ s2 +:+ s3) = String c ((s1 +:+ s2) +:+ s3)).
  by rewrite IH.
Qed.

(** *** Running statements *)

Lemma run_seq (m k : Render unit) st :
  run (m ;; k) st =
  ((run k (run m st).1).1, (run m st).2 ++ (run k (run m st).1).2).
Proof.
  unfold run, mbind, render_bind.
  destruct (m st) as [[[] st1] out1]. simpl.
  by destruct (k st1) as [[[] st2] out2].
Qed.

Lemma run_get (k : Cursor → Render unit) st :
  run (st' ← get; k st') st = run (k st) st.
Proof.
  unfold run, mbind, render_bind, get.
  by destruct (k st st) as [[[] st2] out2].
Qed.

Lemma run_when_true (m : Render unit) st : run (when true m) st = run m st.
Proof. done. Qed.

Lemma run_when_false (m : Render unit) st : run (when false m) st = (st, []).
Proof. done. Qed.

Lemma run_emit_all out st : run (emit_all out) st = (st, out).
Proof. done. Qed.

Lemma run_modify f st : run (modify f) st = (f st, []).
Proof. done. Qed.

Lemma words_and_markers_app out1 out2 :
  words_and_markers (out1 ++ out2) = words_and_markers out1 ++ words_and_markers out2.
Proof. apply List.filter_app. Qed.

Lemma structural_seq m k : structural m → structural k → structural (m ;; k).
Proof.
  intros Hm Hk st. rewrite run_seq. simpl.
  destruct (Hm st) as (Ho1 & Hl1 & Hd1).
  destruct (Hk (run m st).1) as (Ho2 & Hl2 & Hd2).
  rewrite words_and_markers_app, Ho1, Ho2, Hl2, Hl1, Hd2, Hd1. done.
Qed.

Lemma structural_when b m : structural m → structural (when b m).
Proof. intros Hm. destruct b; [done|]. intros st. done. Qed.

Lemma structural_get k : (∀ st, structural (k st)) → structural (st ← get; k st).
Proof. intros Hk st. rewrite run_get. apply Hk. Qed.

Lemma structural_ret : structural (mret tt).
Proof. done. Qed.

Lemma structural_emit_tag m :
  is_word_or_marker m = false → structural (emit m).
Proof. intros Hm st. unfold words_and_markers. simpl. by rewrite Hm. Qed.

Lemma structural_modify f :
  (∀ st, paragraph_lang (f st) = paragraph_lang st ∧
         para_is_ltr (f st) = para_is_ltr st) →
  structural (modify f).
Proof. intros Hf st. simpl. split; [done|apply Hf]. Qed.

Ltac structural_tac :=
  repeat first
    [ apply structural_seq | apply structural_when | apply structural_ret
    | apply structural_get; intros ?
    | apply structural_emit_tag; reflexivity
    | apply structural_modify; intros ?; split; reflexivity ].

Lemma structural_quiet m : structural m → quiet m.
Proof. intros Hm st. apply Hm. Qed.

Lemma quiet_seq m k : quiet m → quiet k → quiet (m ;; k).
Proof.
  intros Hm Hk st. rewrite run_seq. simpl.
  by rewrite words_and_markers_app, Hm, Hk.
Qed.

Lemma quiet_when b m : quiet m → quiet (when b m).
Proof. intros Hm. by destruct b. Qed.

Lemma quiet_modify f : quiet (modify f).
Proof. done. Qed.

Ltac quiet_tac :=
  repeat first
    [ apply quiet_seq | apply quiet_when | apply quiet_modify
    | apply structural_quiet, structural_emit_tag; reflexivity ].

Lemma row_step_structural y coords : structural (row_step y coords).
Proof. unfold row_step. destruct (Membership.find_boundary y coords); structural_tac. Qed.

Lemma col_step_structural x coords : structural (col_step x coords).
Proof. unfold col_step. destruct (Membership.find_boundary x coords); structural_tac. Qed.

Lemma word_body_quiet w : words_and_markers (word_body w) = [].
Proof. unfold word_body. by destruct (bold w), (italic w). Qed.

Lemma direction_marker_loose ltr w :
  words_and_markers (direction_marker ltr w) = direction_marker ltr w.
Proof. unfold direction_marker. by destruct (direction w), ltr. Qed.

(** Membership of a pair in an attribute list written out element by
    element: [attr_in] finds the element, [attr_cases] goes through the
    list. *)
Ltac attr_in :=
  simpl; repeat first [apply list_elem_of_here | apply list_elem_of_further].

Ltac attr_cases H :=
  simpl in H;
  repeat (apply elem_of_cons in H as [H|H]; [simplify_eq|]);
  try (by apply elem_of_nil in H).

Section with_escape.
Variable HOcrEscape : string → string.

(** What one pass of the loop body writes in word spans and direction
    markers. *)
Lemma process_word_spans env st w :
  let x := Membership.center (box_left (word_box w)) (box_right (word_box w)) in
  let y := Membership.center (box_top (word_box w)) (box_bottom (word_box w)) in
  let cur_table_idx := Membership.find_table x y (tables_joints env) in
  words_and_markers (run (process_word HOcrEscape env w) st).2 =
    if cur_table_idx =? -1
    then Open WordSpan (LF +:+ "      <span ")
           (flow_word_attrs HOcrEscape (font_info env) (tracked_lang st w) w)
         :: direction_marker (tracked_ltr st w) w
    else [Open WordSpan (LF +:+ "        <span ") (table_word_attrs w)].
Proof.
  intros x y cur. unfold process_word. fold x y cur.
  rewrite run_seq. cbn [fst snd]. rewrite words_and_markers_app.
  set (st1 := (run (when (at_block_start w) (open_block env w)) st).1).
  assert (words_and_markers
            (run (when (at_block_start w) (open_block env w)) st).2 = []
          ∧ paragraph_lang st1 = paragraph_lang st
          ∧ para_is_ltr st1 = (if at_block_start w then true else para_is_ltr st))
    as (-> & Hlang1 & Hltr1).
  { subst st1. by destruct (at_block_start w). }
  rewrite run_get, run_seq. cbn [fst snd]. rewrite words_and_markers_app.
  set (change := when (negb (prev_table_idx st1 =? cur)) _).
  assert (structural change) as Hchange by (subst change; structural_tac).
  destruct (Hchange st1) as (-> & Hlang2 & Hltr2).
  set (st2 := (run change st1).1) in *.
  rewrite run_seq. cbn [fst snd]. rewrite words_and_markers_app.
  match goal with
  | |- context [run (modify (set_prev_table_idx cur);; ?k) ?s] =>
      assert (quiet (modify (set_prev_table_idx cur);; k)) as Hclose
        by quiet_tac;
      rewrite (Hclose s)
  end.
  rewrite app_nil_r. simpl.
  destruct (cur =? -1) eqn:Hcur; simpl.
  - (* text flow *)
    rewrite run_seq. cbn [fst snd]. rewrite words_and_markers_app.
    rewrite run_seq. cbn [fst snd]. rewrite words_and_markers_app.
    rewrite run_get, run_emit_all. cbn [fst snd].
    unfold tracked_lang, tracked_ltr.
    destruct (at_para_start w), (at_line_start w); simpl;
      unfold flow_word, words_and_markers; simpl;
      fold (words_and_markers (word_body w ++ direction_marker (para_is_ltr st2) w));
      fold (words_and_markers
              (word_body w ++ direction_marker (paragraph_is_ltr w) w));
      rewrite words_and_markers_app, word_body_quiet, direction_marker_loose;
      simpl; rewrite ?Hlang2, ?Hlang1, ?Hltr2, ?Hltr1; done.
  - (* table *)
    rewrite run_get.
    repeat (rewrite run_seq; cbn [fst snd]; rewrite words_and_markers_app).
    rewrite run_emit_all. cbn [fst snd].
    match goal with
    | |- context [run (when ?b ?m) st2] =>
        assert (structural (when b m)) as Hopen by structural_tac;
        destruct (Hopen st2) as (-> & _ & _)
    end.
    match goal with
    | |- context [run (row_step ?a ?b) ?s] =>
        destruct (row_step_structural a b s) as (-> & _ & _)
    end.
    match goal with
    | |- context [run (col_step ?a ?b) ?s] =>
        destruct (col_step_structural a b s) as (-> & _ & _)
    end.
    simpl. unfold table_word, words_and_markers. simpl.
    fold (words_and_markers (word_body w)). by rewrite word_body_quiet.
Qed.

Lemma flow_word_attrs_flags font_info pl w :
  carries_flags w (flow_word_attrs HOcrEscape font_info pl w).
Proof.
  unfold carries_flags, flow_word_attrs, box_attrs.
  destruct (lang_differs (lang w) pl), font_info, (font_name w);
    split_and!; attr_in.
Qed.

Lemma table_word_attrs_flags w : carries_flags w (table_word_attrs w).
Proof. unfold carries_flags, table_word_attrs, box_attrs. split_and!; attr_in. Qed.

Lemma table_word_attrs_no_lang w v : ("lang", v) ∉ table_word_attrs w.
Proof. unfold table_word_attrs, box_attrs. intros H. attr_cases H. Qed.

Lemma lang_differs_true l pl :
  lang_differs l pl = true ↔ ∃ v, l = Some v ∧ pl ≠ Some v.
Proof.
  destruct l as [v|], pl as [p|]; simpl.
  - rewrite negb_true_iff, String.eqb_neq. split.
    + intros Hne. exists v. split; [done|congruence].
    + intros (? & [= <-] & Hne). congruence.
  - split; [by exists v|done].
  - split; [done|by intros (? & ? & _)].
  - split; [done|by intros (? & ? & _)].
Qed.

Lemma flow_word_attrs_lang font_info pl w v :
  ("lang", v) ∈ flow_word_attrs HOcrEscape font_info pl w ↔
  lang w = Some v ∧ pl ≠ Some v.
Proof.
  unfold flow_word_attrs, box_attrs.
  destruct (lang_differs (lang w) pl) eqn:Hd.
  - apply lang_differs_true in Hd as (l & Hl & Hne). rewrite Hl. split.
    + intros H. destruct font_info, (font_name w); attr_cases H; done.
    + intros [[= ->] _]. destruct font_info, (font_name w); attr_in.
  - split.
    + intros H. destruct font_info, (font_name w); attr_cases H.
    + intros [Hl Hne].
      assert (lang_differs (lang w) pl = true) as Ht
        by (apply lang_differs_true; by exists v).
      congruence.
Qed.

Lemma flow_word_attrs_font_name font_info pl w v :
  ("font_name", v) ∈ flow_word_attrs HOcrEscape font_info pl w ↔
  font_info = true ∧ ∃ f, font_name w = Some f ∧ v = HOcrEscape f.
Proof.
  unfold flow_word_attrs, box_attrs. split.
  - intros H.
    destruct (lang_differs (lang w) pl), font_info, (font_name w) as [f|];
      attr_cases H; eauto.
  - intros (-> & f & -> & ->). destruct (lang_differs (lang w) pl); attr_in.
Qed.

Lemma direction_marker_diverges ltr w s :
  Loose s ∈ direction_marker ltr w ↔
  (direction w = DIR_RIGHT_TO_LEFT ∧ ltr = true ∧ s = " dir='rtl'") ∨
  (direction w = DIR_LEFT_TO_RIGHT ∧ ltr = false ∧ s = " dir='ltr'").
Proof.
  unfold direction_marker. split.
  - intros H. destruct (direction w), ltr; attr_cases H; eauto.
  - intros [(-> & -> & ->)|(-> & -> & ->)]; attr_in.
Qed.

(** C9, as amended.  In one pass of the loop body exactly one word span
    is written.  It carries the confidence and the dictionary and numeric
    flags.  For a word outside every table it carries [lang] exactly
    when the word has a language other than the paragraph language the
    cursor holds, [font_name] exactly when font output is on and the
    word has a font name, and it is followed by a direction marker
    exactly when the word runs right-to-left in a left-to-right paragraph
    or left-to-right in a right-to-left one.  For a word inside a table
    there is no [lang] and no direction marker. *)
Theorem word_span_attributes (env : PageEnv) (st : Cursor) (w : Word) :
  let x := Membership.center (box_left (word_box w)) (box_right (word_box w)) in
  let y := Membership.center (box_top (word_box w)) (box_bottom (word_box w)) in
  let cur_table_idx := Membership.find_table x y (tables_joints env) in
  let flow_attrs :=
    flow_word_attrs HOcrEscape (font_info env) (tracked_lang st w) w in
  words_and_markers (run (process_word HOcrEscape env w) st).2 =
    (if cur_table_idx =? -1
     then Open WordSpan (LF +:+ "      <span ") flow_attrs
          :: direction_marker (tracked_ltr st w) w
     else [Open WordSpan (LF +:+ "        <span ") (table_word_attrs w)]) ∧
  carries_flags w flow_attrs ∧
  carries_flags w (table_word_attrs w) ∧
  (∀ v, ("lang", v) ∈ flow_attrs ↔
        lang w = Some v ∧ tracked_lang st w ≠ Some v) ∧
  (∀ v, ("font_name", v) ∈ flow_attrs ↔
        font_info env = true ∧ ∃ f, font_name w = Some f ∧ v = HOcrEscape f) ∧
  (∀ s, Loose s ∈ direction_marker (tracked_ltr st w) w ↔
        (direction w = DIR_RIGHT_TO_LEFT ∧ tracked_ltr st w = true ∧
         s = " dir='rtl'") ∨
        (direction w = DIR_LEFT_TO_RIGHT ∧ tracked_ltr st w = false ∧
         s = " dir='ltr'")) ∧
  (∀ v, ("lang", v) ∉ table_word_attrs w).
Proof.
  intros x y cur flow_attrs.
  split; [apply process_word_spans|].
  split; [apply flow_word_attrs_flags|].
  split; [apply table_word_attrs_flags|].
  split; [intros v; apply flow_word_attrs_lang|].
  split; [intros v; apply flow_word_attrs_font_name|].
  split; [intros s; apply direction_marker_diverges|].
  intros v. apply table_word_attrs_no_lang.
Qed.

(** *** The open row *)

Lemma keeps_row_seq m k : keeps_row m → keeps_row k → keeps_row (m ;; k).
Proof.
  intros Hm Hk st. rewrite run_seq. cbn [fst].
  specialize (Hm st). specialize (Hk (run m st).1). lia.
Qed.

Lemma keeps_row_when b m : keeps_row m → keeps_row (when b m).
Proof. intros Hm. destruct b; [done|]. intros st. simpl. lia. Qed.

Lemma keeps_row_get k : (∀ st, keeps_row (k st)) → keeps_row (st ← get; k st).
Proof. intros Hk st. rewrite run_get. apply Hk. Qed.

Lemma keeps_row_emit m : keeps_row (emit m).
Proof. intros st. simpl. lia. Qed.

Lemma keeps_row_emit_all out : keeps_row (emit_all out).
Proof. intros st. simpl. lia. Qed.

Lemma keeps_row_modify f :
  (∀ st, prev_row (f st) = prev_row st) → keeps_row (modify f).
Proof. intros Hf st. simpl. rewrite Hf. lia. Qed.

Lemma row_step_keeps_row y coords : keeps_row (row_step y coords).
Proof.
  unfold row_step. destruct (Membership.find_boundary y coords) as [cur_row|];
    [|intros st; simpl; lia].
  intros st. rewrite run_get.
  destruct (prev_row st <? cur_row)%nat eqn:Hlt; [|simpl; lia].
  apply Nat.ltb_lt in Hlt. destruct (prev_row st =? 0)%nat; simpl; lia.
Qed.

Lemma col_step_keeps_row x coords : keeps_row (col_step x coords).
Proof.
  unfold col_step. destruct (Membership.find_boundary x coords) as [cur_col|];
    [|intros st; simpl; lia].
  intros st. rewrite run_get.
  destruct (prev_col st <? cur_col)%nat, (prev_col st =? 0)%nat; simpl; lia.
Qed.

Ltac keeps_row_tac :=
  repeat first
    [ apply keeps_row_seq | apply keeps_row_when | apply keeps_row_emit
    | apply keeps_row_emit_all
    | apply row_step_keeps_row | apply col_step_keeps_row
    | apply keeps_row_get; intros ?
    | apply keeps_row_modify; intros ?; reflexivity ].

(** X2.  While the serialiser stays in the same table (or stays outside every
    table), the row index it holds as open never decreases from one word to
    the next, whatever index the word itself is assigned. *)
Theorem open_row_never_decreases (env : PageEnv) (st : Cursor) (w : Word) :
  let x := Membership.center (box_left (word_box w)) (box_right (word_box w)) in
  let y := Membership.center (box_top (word_box w)) (box_bottom (word_box w)) in
  prev_table_idx st = Membership.find_table x y (tables_joints env) →
  (prev_row st ≤ prev_row (run (process_word HOcrEscape env w) st).1)%nat.
Proof.
  intros x y Hsame. unfold process_word. fold x y.
  rewrite run_seq. cbn [fst].
  set (st1 := (run (when (at_block_start w) (open_block env w)) st).1).
  assert (prev_row st1 = prev_row st ∧ prev_table_idx st1 = prev_table_idx st)
    as [Hrow1 Htable1] by (subst st1; by destruct (at_block_start w)).
  rewrite run_get, Htable1, Hsame, Z.eqb_refl. cbn [negb].
  rewrite run_seq. cbn [fst]. rewrite run_when_false. cbn [fst].
  rewrite <-Hrow1.
  match goal with
  | |- (_ ≤ prev_row (run ?m st1).1)%nat =>
      assert (keeps_row m) as Hkeeps; [|apply Hkeeps]
  end.
  destruct (negb _); keeps_row_tac.
Qed.

(** *** Pages without tables *)

Lemma check_nesting_direction stack ltr w rest :
  check_nesting stack (direction_marker ltr w ++ rest) = check_nesting stack rest.
Proof. unfold direction_marker. by destruct (direction w), ltr. Qed.

(** One word of the text flow takes the stack from the elements open before
    it to those open after it. *)
Lemma flow_step pid fi w st ib ip il rest :
  prev_table_idx st = -1 →
  (il = true → ip = true) → (ip = true → ib = true) →
  at_block_start w = negb ib → at_para_start w = negb ip →
  at_line_start w = negb il →
  (last_word_in_block w = true → last_word_in_para w = true) →
  (last_word_in_para w = true → last_word_in_line w = true) →
  bold w && italic w = false →
  prev_table_idx (run (process_word HOcrEscape (flow_env pid fi) w) st).1 = -1 ∧
  check_nesting (open_stack ib ip il)
    ((run (process_word HOcrEscape (flow_env pid fi) w) st).2 ++ rest)
  = check_nesting
      (open_stack (negb (last_word_in_block w)) (negb (last_word_in_para w))
                  (negb (last_word_in_line w))) rest.
Proof.
  intros Hprev Hlp Hpb Hb Hp Hl Hbp Hpl Hbi.
  unfold process_word, flow_env. cbn [tables_joints font_info page_id].
  unfold Membership.find_table. cbn [Membership.find_table_from].
  unfold open_block, open_paragraph, open_line, flow_word.
  unfold run, mbind, render_bind, get, when, modify, emit, emit_all, mret,
    render_ret.
  rewrite Hb, Hp, Hl.
  destruct ib, ip, il;
    try (by specialize (Hlp eq_refl)); try (by specialize (Hpb eq_refl));
    cbn [negb];
    cbn -[String.append show direction_marker word_body flow_word_attrs];
    rewrite ?Hprev;
    cbn -[String.append show direction_marker word_body flow_word_attrs];
    (destruct (last_word_in_block w), (last_word_in_para w),
       (last_word_in_line w);
     try (by specialize (Hbp eq_refl)); try (by specialize (Hpl eq_refl));
     unfold word_body;
     destruct (bold w), (italic w); try discriminate Hbi;
     cbn -[String.append show direction_marker flow_word_attrs];
     (split; [reflexivity|]);
     rewrite <-?app_assoc, check_nesting_direction; reflexivity).
Qed.

Lemma words_loop_flow pid fi ws : ∀ st ib ip il rest,
  prev_table_idx st = -1 →
  (il = true → ip = true) → (ip = true → ib = true) →
  well_nested ib ip il ws = true →
  check_nesting (open_stack ib ip il)
    ((run (words_loop HOcrEscape (flow_env pid fi) ws) st).2 ++ rest)
  = check_nesting ["div"] rest.
Proof.
  induction ws as [|w ws IH]; intros st ib ip il rest Hprev Hlp Hpb Hnest.
  - simpl in Hnest. by destruct ib, ip, il.
  - cbn [well_nested] in Hnest. cbn [words_loop].
    unfold visible in Hnest.
    destruct (word_empty w); [by apply IH|].
    destruct (is_blank (text w)); [by apply IH|].
    cbn [negb andb] in Hnest.
    repeat (apply andb_true_iff in Hnest as [Hnest ?]).
    rewrite run_seq. cbn [fst snd]. rewrite <-app_assoc.
    destruct (flow_step pid fi w st ib ip il
                ((run (words_loop HOcrEscape (flow_env pid fi) ws)
                      (run (process_word HOcrEscape (flow_env pid fi) w) st).1).2
                 ++ rest)) as [Hprev' ->];
      try done.
    + by apply eqb_prop.
    + by apply eqb_prop.
    + by apply eqb_prop.
    + intros Hlast. rewrite Hlast in *. done.
    + intros Hlast. rewrite Hlast in *. done.
    + by apply negb_true_iff.
    + apply IH; try done.
      * destruct (last_word_in_line w), (last_word_in_para w); done.
      * destruct (last_word_in_para w), (last_word_in_block w); done.
Qed.


(** *** The whole function *)

Variable Recognize : TessBaseAPI → option (list Word).
Variable SetInputName : option string → TessBaseAPI → TessBaseAPI.
Context `{backend : CvBackend}.

(** With recognition results and an input name at hand, the result is
    the page written for the tables that [ExtractTableJoints] returns. *)
Lemma GetAbbyyText_markup_page api page_number name words tables :
  tesseract_ api = true → page_res_ api = Some words →
  input_file_ api = Some name →
  TableExtractor.ExtractTableJoints (HOcrEscape name) = Ok tables →
  GetAbbyyText_markup HOcrEscape Recognize SetInputName api page_number
  = Ok (Some (page_markup HOcrEscape api page_number name tables words)).
Proof.
  intros Ht Hres Hname Htables. unfold GetAbbyyText_markup.
  rewrite Ht, Hres, Hname. cbn [negb]. by rewrite Hname, Htables.
Qed.


(** C2 fails.  The test of [src.data] only prints a message.  When the
    image of the page cannot be loaded and thresholding the matrix that
    [imread] returned raises, the exception leaves [ExtractTableJoints]
    and then [GetAbbyyText]: no empty list of regions is returned and the
    page is not serialised. *)
Theorem unloadable_image_aborts_page (api : TessBaseAPI) (page_number : Z)
    (name : string) (words : list Word) :
  tesseract_ api = true → page_res_ api = Some words →
  input_file_ api = Some name →
  let src := imread (HOcrEscape name) in
  data_is_null src = true →
  (∀ gray inverted,
     (if channels src =? 3 then cvtColor_BGR2GRAY src else Ok src) = Ok gray →
     bitwise_not gray = Ok inverted →
     adaptiveThreshold inverted 255 15 (-2) = CvException) →
  TableExtractor.ExtractTableJoints (HOcrEscape name) = CvException ∧
  GetAbbyyText HOcrEscape Recognize SetInputName api page_number = CvException.
Proof.
  intros Ht Hres Hname src _ Hthreshold.
  assert (TableExtractor.ExtractTableJoints (HOcrEscape name) = CvException) as HE.
  { unfold TableExtractor.ExtractTableJoints, TableExtractor.line_masks.
    fold src.
    destruct (if channels src =? 3 then _ else _) as [gray|] eqn:Hgray; [|done].
    simpl. destruct (bitwise_not gray) as [inverted|] eqn:Hinv; [|done].
    simpl. by rewrite (Hthreshold gray inverted). }
  split; [exact HE|].
  unfold GetAbbyyText, GetAbbyyText_markup.
  rewrite Ht, Hres, Hname. cbn [negb]. by rewrite Hname, HE.
Qed.

End with_escape.


Lemma unloadable_image_aborts_page_witness :
  TableExtractor.ExtractTableJoints (backend := Samples.no_image_backend)
    "missing.png" = CvException ∧
  GetAbbyyText (backend := Samples.no_image_backend)
    id (λ _, None) (λ _ api, api)
    (Samples.sample_api (Some "missing.png") [Samples.cell_word]) 0
  = CvException.
Proof.
  apply (unloadable_image_aborts_page (backend := Samples.no_image_backend)
           id (λ _, None) (λ _ api, api)
           (Samples.sample_api (Some "missing.png") [Samples.cell_word]) 0
           "missing.png" [Samples.cell_word]);
    [reflexivity | reflexivity | reflexivity | reflexivity
    | intros; reflexivity].
Defined.

(** C1 fails.  A page whose only word lies in a table: the end tags of
    [table] and [tbody] are written before any table is open and in the
    wrong order, the row, the cell, the [tbody] and the [table] that are
    then opened are never closed, and the block's and the page's end tags
    follow with all of them still open.  The stack check rejects the
    output. *)
Theorem table_page_is_not_well_formed :
  let api := Samples.sample_api (Some "page.png") [Samples.cell_word] in
  let out := page_markup id api 0 "page.png" [Samples.ruled_table]
               [Samples.cell_word] in
  tag_events out =
    [Opened Page; Opened Block; Closed Table; Closed TBody;
     Opened Table; Opened TBody; Opened Tr; Opened Td;
     Opened WordSpan; Closed WordSpan; Closed Block; Closed Page] ∧
  well_formed out = false ∧
  (opens Tr out = 1 ∧ closes Tr out = 0)%nat ∧
  (opens Td out = 1 ∧ closes Td out = 0)%nat.
Proof. vm_compute. repeat split. Qed.

Example table_page_output :
  print (page_markup id (Samples.sample_api (Some "page.png") [Samples.cell_word])
           0 "page.png" [Samples.ruled_table] [Samples.cell_word]) =
  "  <div class='page' id='page_1' filename='page.png' left='0' top='0' width='40' height='40' ppageno='0'>
   <div class='block' id='block_1_1' left='0' top='0' right='40' bottom='40'>
    </table>
     </tbody>
    <table>
     <tbody>
      <tr>
       <td>
        <span wordconfidence='95' left='3' top='3' right='7' bottom='7' wordfirst='1' wordfromdictionary='1' wordnumeric='0' fontsize='10'>A</span>   </div>
  </div>
".
Proof. vm_compute. reflexivity. Qed.

(** The same word on a page without tables goes through the text flow,
    and that output passes the stack check. *)
Example flow_page_output :
  let out := page_markup id (Samples.sample_api (Some "page.png") [Samples.cell_word])
               0 "page.png" [] [Samples.cell_word] in
  well_formed out = true ∧
  print out =
  "  <div class='page' id='page_1' filename='page.png' left='0' top='0' width='40' height='40' ppageno='0'>
   <div class='block' id='block_1_1' left='0' top='0' right='40' bottom='40'>
    <p class='paragraph' id='par_1_1'  lang='eng'left='0' top='0' right='40' bottom='40'>
     <span class='line' id='line_1_1' left='0' top='0' right='40' bottom='40'>
      <span class='word' wordconfidence='95' left='3' top='3' right='7' bottom='7' wordfirst='1' wordfromdictionary='1' wordnumeric='0' fontsize='10'>A</span>
     </span>
    </p>
   </div>
  </div>
".
Proof. vm_compute. split; reflexivity. Qed.


Lemma open_row_never_decreases_witness :
  (prev_row (Samples.in_table_row 1)
   ≤ prev_row (run (process_word id (Samples.sample_env true) Samples.cell_word)
                   (Samples.in_table_row 1)).1)%nat.
Proof.
  apply (open_row_never_decreases id (Samples.sample_env true)
           (Samples.in_table_row 1) Samples.cell_word).
  reflexivity.
Defined.

(** C9, as stated, fails for a word inside a table: the French
    right-to-left word in font Arial, met in an English left-to-right
    paragraph with font output on, gets a span without [lang] and without
    [font_name], and no direction marker. *)
Lemma table_word_span_lacks_language_font_direction :
  ¬ word_span_as_claimed id true (Some "eng") true Samples.foreign_cell_word
      (run (process_word id (Samples.sample_env true) Samples.foreign_cell_word)
           Samples.in_english_paragraph).2.
Proof.
  intros (lead & attrs & Hin & _ & Hlang & _).
  specialize (Hlang "fra" eq_refl ltac:(done)).
  vm_compute in Hin.
  repeat (apply elem_of_cons in Hin as [Hin|Hin]; [try discriminate Hin|]).
  - injection Hin as _ ->. attr_cases Hlang.
  - by apply elem_of_nil in Hin.
Qed.

Example foreign_cell_word_output :
  print (run (process_word id (Samples.sample_env true) Samples.foreign_cell_word)
             Samples.in_english_paragraph).2 =
  "
    </table>
     </tbody>
    <table>
     <tbody>
      <tr>
       <td>
        <span wordconfidence='80' left='3' top='3' right='7' bottom='7' wordfirst='0' wordfromdictionary='0' wordnumeric='0' fontsize='10'>B</span>".
Proof. vm_compute. reflexivity. Qed.

End AbbyyFacts.

(** ** More about the grid builder *)

Module GridProperties.
Import Grid.

Lemma near_any_true acc c :
  near_any acc c = true ↔ ∃ a, a ∈ acc ∧ Z.abs (a - c) < 3.
Proof.
  induction acc as [|b acc IH]; simpl.
  - split; [done|]. intros (a & Ha & _). by apply elem_of_nil in Ha.
  - destruct (Z.ltb_spec (Z.abs (b - c)) 3) as [Hlt|Hge].
    + split; [|done]. intros _. exists b. split; [apply list_elem_of_here|done].
    + rewrite IH. split.
      * intros (a & Ha & Hnear). exists a. split; [by apply list_elem_of_further|done].
      * intros (a & Ha & Hnear). apply elem_of_cons in Ha as [->|Ha]; [lia|].
        by exists a.
Qed.

(** A group only appends, and only coordinates of its own points. *)
Lemma spec_group_extends coord pts acc :
  ∃ more, spec_group coord pts acc = acc ++ more ∧
          Forall (λ c, ∃ p, p ∈ pts ∧ coord p = c) more.
Proof.
  revert acc. induction pts as [|p pts IH]; intros acc; simpl.
  - exists []. by rewrite app_nil_r.
  - destruct (spec_fresh acc (coord p)).
    + destruct (IH (acc ++ [coord p])) as (more & -> & Hmore).
      exists (coord p :: more). split; [by rewrite <-app_assoc|].
      constructor.
      * exists p. split; [apply list_elem_of_here|done].
      * eapply Forall_impl; [exact Hmore|].
        intros c (q & Hq & <-). exists q. split; [by apply list_elem_of_further|done].
    + exists []. by rewrite app_nil_r.
Qed.

Lemma spec_groups_extends coord groups acc :
  ∃ more, foldl (λ acc g, spec_group coord g acc) acc groups = acc ++ more ∧
          Forall (λ c, ∃ g p, g ∈ groups ∧ p ∈ g ∧ coord p = c) more.
Proof.
  revert acc. induction groups as [|g groups IH]; intros acc; simpl.
  - exists []. by rewrite app_nil_r.
  - destruct (spec_group_extends coord g acc) as (more1 & -> & Hmore1).
    destruct (IH (acc ++ more1)) as (more2 & -> & Hmore2).
    exists (more1 ++ more2). split; [by rewrite <-app_assoc|].
    apply Forall_app. split.
    + eapply Forall_impl; [exact Hmore1|].
      intros c (p & Hp & <-). exists g, p. split; [apply list_elem_of_here|done].
    + eapply Forall_impl; [exact Hmore2|].
      intros c (g' & p & Hg' & Hp & <-). exists g', p.
      split; [by apply list_elem_of_further|done].
Qed.

Lemma spec_axis_from_points coord (table : list (list cv.Point)) a :
  a ∈ spec_axis coord table → ∃ g p, g ∈ table ∧ p ∈ g ∧ coord p = a.
Proof.
  unfold spec_axis. rewrite GridFacts.sort_Permutation.
  destruct (spec_groups_extends coord (reverse table) []) as (more & -> & Hmore).
  simpl. intros Ha. rewrite Forall_forall in Hmore.
  destruct (Hmore a Ha) as (g & p & Hg & Hp & Heq).
  exists g, p. by rewrite elem_of_reverse in Hg.
Qed.

(** The first point of a group is either taken or dropped for a coordinate
    already there. *)
Lemma spec_group_covers_head coord p pts acc :
  ∃ a, a ∈ spec_group coord (p :: pts) acc ∧ Z.abs (a - coord p) < 3.
Proof.
  simpl. destruct (spec_fresh acc (coord p)) eqn:Hfresh.
  - exists (coord p). split; [|rewrite Z.sub_diag; simpl; lia].
    destruct (spec_group_extends coord pts (acc ++ [coord p])) as (more & -> & _).
    rewrite !elem_of_app, list_elem_of_singleton. auto.
  - apply near_any_true. by rewrite GridFacts.near_any_spec_fresh, Hfresh.
Qed.

Lemma spec_groups_cover_heads coord groups acc p pts :
  (p :: pts) ∈ groups →
  ∃ a, a ∈ foldl (λ acc g, spec_group coord g acc) acc groups ∧
       Z.abs (a - coord p) < 3.
Proof.
  revert acc. induction groups as [|g groups IH]; intros acc Hg.
  - by apply elem_of_nil in Hg.
  - apply elem_of_cons in Hg as [<-|Hg]; [|by apply IH].
    destruct (spec_group_covers_head coord p pts acc) as (a & Ha & Hnear).
    exists a. split; [|done]. cbn [foldl].
    destruct (spec_groups_extends coord groups (spec_group coord (p :: pts) acc))
      as (more & -> & _).
    apply elem_of_app. by left.
Qed.

Lemma spec_axis_covers_heads coord (table : list (list cv.Point)) p pts :
  (p :: pts) ∈ table →
  ∃ a, a ∈ spec_axis coord table ∧ Z.abs (a - coord p) < 3.
Proof.
  intros Hg. unfold spec_axis.
  destruct (spec_groups_cover_heads coord (reverse table) [] p pts)
    as (a & Ha & Hnear); [by rewrite elem_of_reverse|].
  exists a. by rewrite GridFacts.sort_Permutation.
Qed.

Lemma grid_covers_first_point_lemma (table : list (list cv.Point)) p pts :
  (p :: pts) ∈ table →
  (∃ a, a ∈ x_grid table ∧ Z.abs (a - cv.x p) < 3) ∧
  (∃ b, b ∈ y_grid table ∧ Z.abs (b - cv.y p) < 3).
Proof.
  intros Hg. rewrite GridFacts.x_grid_spec, GridFacts.y_grid_spec.
  split; by eapply spec_axis_covers_heads.
Qed.

(** X3.  Every boundary of a table's grid is a coordinate of one of the table's
    joint points: the grid builder invents no line. *)
Theorem grid_boundaries_are_joint_coordinates (table : list (list cv.Point)) (a : Z) :
  (a ∈ x_grid table → ∃ g p, g ∈ table ∧ p ∈ g ∧ cv.x p = a) ∧
  (a ∈ y_grid table → ∃ g p, g ∈ table ∧ p ∈ g ∧ cv.y p = a).
Proof.
  rewrite GridFacts.x_grid_spec, GridFacts.y_grid_spec.
  split; apply spec_axis_from_points.
Qed.

(** X4.  The first point of every joint group is represented on both axes: its x
    is less than 3 pixels from some x-boundary and its y less than 3 pixels
    from some y-boundary.  (Later points of a group are not looked at once
    one of them has been dropped.) *)
Theorem grid_covers_first_point_of_every_group
    (table : list (list cv.Point)) (p : cv.Point) (pts : list cv.Point) :
  (p :: pts) ∈ table →
  (∃ a, a ∈ x_grid table ∧ Z.abs (a - cv.x p) < 3) ∧
  (∃ b, b ∈ y_grid table ∧ Z.abs (b - cv.y p) < 3).
Proof.
  apply grid_covers_first_point_lemma.
Qed.

Lemma grid_boundaries_are_joint_coordinates_witness :
  (∃ g p, g ∈ Samples.ruled_table ∧ p ∈ g ∧ cv.x p = 10) ∧
  (∃ g p, g ∈ Samples.ruled_table ∧ p ∈ g ∧ cv.y p = 18).
Proof.
  split.
  - apply (grid_boundaries_are_joint_coordinates Samples.ruled_table 10).
    vm_compute. repeat first [apply list_elem_of_here | apply list_elem_of_further].
  - apply (grid_boundaries_are_joint_coordinates Samples.ruled_table 18).
    vm_compute. repeat first [apply list_elem_of_here | apply list_elem_of_further].
Defined.

Lemma grid_covers_first_point_of_every_group_witness :
  (∃ a, a ∈ x_grid Samples.ruled_table ∧ Z.abs (a - 0) < 3) ∧
  (∃ b, b ∈ y_grid Samples.ruled_table ∧ Z.abs (b - 18) < 3).
Proof.
  apply (grid_covers_first_point_of_every_group Samples.ruled_table
           (cv.mkPoint 0 18) [cv.mkPoint 0 20]).
  unfold Samples.ruled_table.
  repeat first [apply list_elem_of_here | apply list_elem_of_further].
Defined.

End GridProperties.

(** ** Moving a region by the offset of its cropped mask *)

Module TranslationProperties.
Import Grid Membership.

Lemma spec_fresh_shift acc c d :
  spec_fresh ((λ a, a + d) <$> acc) (c + d) = spec_fresh acc c.
Proof.
  unfold spec_fresh. induction acc as [|a acc IH]; [done|].
  cbn [fmap list_fmap forallb]. fold (fmap (M := list) (λ a, a + d) acc).
  rewrite IH. f_equal. f_equal. f_equal. lia.
Qed.

Lemma spec_group_shift coord off d pts acc :
  (∀ p, coord (TableExtractor.translate off p) = coord p + d) →
  spec_group coord (map (TableExtractor.translate off) pts) ((λ a, a + d) <$> acc)
  = (λ a, a + d) <$> spec_group coord pts acc.
Proof.
  intros Hcoord. revert acc. induction pts as [|p pts IH]; intros acc; [done|].
  cbn [map spec_group]. rewrite Hcoord, spec_fresh_shift.
  destruct (spec_fresh acc (coord p)); [|done].
  rewrite <-IH. by rewrite fmap_app.
Qed.

Lemma spec_groups_shift coord off d groups acc :
  (∀ p, coord (TableExtractor.translate off p) = coord p + d) →
  foldl (λ acc g, spec_group coord g acc) ((λ a, a + d) <$> acc)
        (map (map (TableExtractor.translate off)) groups)
  = (λ a, a + d) <$> foldl (λ acc g, spec_group coord g acc) acc groups.
Proof.
  intros Hcoord. revert acc. induction groups as [|g groups IH]; intros acc; [done|].
  cbn [map foldl]. by rewrite spec_group_shift, IH.
Qed.

Lemma StronglySorted_shift d l :
  StronglySorted Z.le l → StronglySorted Z.le ((λ a, a + d) <$> l).
Proof.
  induction 1 as [|a l Hl IH Ha]; [constructor|].
  cbn [fmap list_fmap]. constructor; [exact IH|].
  apply Forall_fmap. eapply Forall_impl; [exact Ha|]. intros b Hb. simpl. lia.
Qed.

Lemma sort_shift d l : sort ((λ a, a + d) <$> l) = (λ a, a + d) <$> sort l.
Proof.
  apply GridFacts.sort_unique.
  - by rewrite GridFacts.sort_Permutation.
  - apply StronglySorted_shift, GridFacts.sort_sorted.
Qed.

Lemma spec_axis_shift coord off d (table : list (list cv.Point)) :
  (∀ p, coord (TableExtractor.translate off p) = coord p + d) →
  spec_axis coord (TableExtractor.translate_all off table)
  = (λ a, a + d) <$> spec_axis coord table.
Proof.
  intros Hcoord. unfold spec_axis, TableExtractor.translate_all.
  rewrite <-sort_shift. f_equal.
  rewrite <-(spec_groups_shift coord off d (reverse table) []) by done.
  f_equal. by rewrite <-!fmap_reverse.
Qed.

Lemma in_bounding_rect_shift off x y pts :
  in_bounding_rect_inclusive (x + cv.x off) (y + cv.y off)
    (map (TableExtractor.translate off) pts)
  ↔ in_bounding_rect_inclusive x y pts.
Proof.
  unfold in_bounding_rect_inclusive.
  assert (∀ (P : cv.Point → Prop) (Q : cv.Point → Prop),
            (∀ p, P (TableExtractor.translate off p) ↔ Q p) →
            (∃ p, p ∈ map (TableExtractor.translate off) pts ∧ P p) ↔
            (∃ p, p ∈ pts ∧ Q p)) as Hex.
  { intros P Q HPQ. split.
    - intros (p & Hp & HP). apply (list_elem_of_fmap_1 _ pts) in Hp as (q & -> & Hq).
      exists q. split; [done|by apply HPQ].
    - intros (q & Hq & HQ). exists (TableExtractor.translate off q).
      split; [by apply (list_elem_of_fmap_2 _ pts)|by apply HPQ]. }
  rewrite (Hex _ (λ p, cv.x p ≤ x)) by (intros p; simpl; lia).
  rewrite (Hex _ (λ p, x ≤ cv.x p)) by (intros p; simpl; lia).
  rewrite (Hex _ (λ p, cv.y p ≤ y)) by (intros p; simpl; lia).
  rewrite (Hex _ (λ p, y ≤ cv.y p)) by (intros p; simpl; lia).
  done.
Qed.

(** X6.  Lines 108-113 of tableextractor.cpp move every joint point of a region
    by the offset of the cropped mask.  The grid built from the moved region
    is the grid of the unmoved one with every boundary moved by the same
    amount, and a moved point is inside the moved region exactly when the
    point is inside the region: the offset changes nothing but the frame. *)
Theorem translated_region_has_translated_grid
    (off : cv.Point) (table : list (list cv.Point)) (x y : Z) :
  x_grid (TableExtractor.translate_all off table)
  = (λ a, a + cv.x off) <$> x_grid table ∧
  y_grid (TableExtractor.translate_all off table)
  = (λ b, b + cv.y off) <$> y_grid table ∧
  IsPointInsideTable_xy (x + cv.x off) (y + cv.y off)
    (TableExtractor.translate_all off table)
  = IsPointInsideTable_xy x y table.
Proof.
  rewrite !GridFacts.x_grid_spec, !GridFacts.y_grid_spec.
  split; [by apply spec_axis_shift|]. split; [by apply spec_axis_shift|].
  apply eq_true_iff_eq.
  rewrite !MembershipFacts.IsPointInsideTable_inclusive.
  unfold TableExtractor.translate_all.
  assert (concat (map (map (TableExtractor.translate off)) table)
          = map (TableExtractor.translate off) (concat table)) as ->.
  { induction table as [|g table IH]; [done|].
    cbn [map concat]. by rewrite IH, map_app. }
  apply in_bounding_rect_shift.
Qed.

End TranslationProperties.

(** ** More about membership and the cell address *)

Module AddressProperties.
Import Grid Membership.

Lemma elem_of_concat {A} (x : A) (ls : list (list A)) :
  x ∈ concat ls ↔ ∃ l, l ∈ ls ∧ x ∈ l.
Proof.
  induction ls as [|l ls IH]; simpl.
  - split; [by intros ?%elem_of_nil|]. intros (l & Hl & _). by apply elem_of_nil in Hl.
  - rewrite elem_of_app, IH. split.
    + intros [Hx|(l' & Hl' & Hx)].
      * exists l. split; [apply list_elem_of_here|done].
      * exists l'. split; [by apply list_elem_of_further|done].
    + intros (l' & Hl' & Hx). apply elem_of_cons in Hl' as [->|Hl'];
        [by left|right; by exists l'].
Qed.

(** X7.  Every joint point of a region lies inside the region, the extreme ones
    included; a region without any point contains no point at all. *)
Theorem joint_points_lie_inside_their_region
    (table : list (list cv.Point)) (p : cv.Point) :
  (p ∈ concat table → IsPointInsideTable p table = true) ∧
  (concat table = [] → IsPointInsideTable p table = false).
Proof.
  assert (IsPointInsideTable p table = IsPointInsideTable_xy (cv.x p) (cv.y p) table)
    as -> by (by destruct p).
  split.
  - intros Hp. apply MembershipFacts.IsPointInsideTable_inclusive.
    unfold in_bounding_rect_inclusive.
    split; [|split; [|split]]; exists p; (split; [done|lia]).
  - intros Hempty. apply not_true_is_false.
    rewrite MembershipFacts.IsPointInsideTable_inclusive, Hempty.
    intros ((q & Hq & _) & _). by apply elem_of_nil in Hq.
Qed.

Lemma joint_points_lie_inside_their_region_witness :
  IsPointInsideTable (cv.mkPoint 0 20) Samples.ruled_table = true ∧
  IsPointInsideTable (cv.mkPoint 0 20) [[]; []] = false.
Proof.
  split.
  - apply (joint_points_lie_inside_their_region Samples.ruled_table (cv.mkPoint 0 20)).
    simpl. repeat first [apply list_elem_of_here | apply list_elem_of_further].
  - apply (joint_points_lie_inside_their_region [[]; []] (cv.mkPoint 0 20)).
    reflexivity.
Defined.

Lemma cur_index_in_range c coords :
  coords ≠ [] → (cur_index c coords < length coords)%nat.
Proof.
  intros Hne. unfold cur_index.
  destruct (find_boundary c coords) as [i|] eqn:Hf; simpl.
  - apply ScanFacts.find_boundary_Some in Hf as (_ & (b & Hb & _) & _).
    by eapply lookup_lt_Some.
  - destruct coords; [done|simpl; lia].
Qed.

Lemma region_with_point_has_grid x y (table : list (list cv.Point)) :
  in_bounding_rect_inclusive x y (concat table) →
  x_grid table ≠ [] ∧ y_grid table ≠ [].
Proof.
  intros ((p & Hp & _) & _).
  apply elem_of_concat in Hp as (g & Hg & Hp).
  destruct g as [|q pts]; [by apply elem_of_nil in Hp|].
  destruct (GridProperties.grid_covers_first_point_lemma table q pts Hg)
    as [(a & Ha & _) (b & Hb & _)].
  split; intros Hnil; rewrite Hnil in *; by eapply elem_of_nil.
Qed.

(** X8.  The cell address of a word is always made of valid indices.  The table
    index is -1 or the index of a region of the list; in the second case the
    two coordinate vectors read at [cur_table_idx] are the grids of that
    region, neither is empty, and the row and column indices are positions
    of these vectors. *)
Theorem cell_address_is_in_range (x y : Z) (tables : list (list (list cv.Point))) :
  let cur_table_idx := find_table x y tables in
  cur_table_idx = -1 ∨
  ∃ (n : nat) table,
    cur_table_idx = Z.of_nat n ∧ tables !! n = Some table ∧
    Abbyy.coords_at (x_coords tables) cur_table_idx = x_grid table ∧
    Abbyy.coords_at (y_coords tables) cur_table_idx = y_grid table ∧
    (cur_index y (y_grid table) < length (y_grid table))%nat ∧
    (cur_index x (x_grid table) < length (x_grid table))%nat.
Proof.
  intros cur. subst cur. unfold find_table.
  destruct (MembershipFacts.find_table_from_spec x y tables 0)
    as [[Heq _]|(n & table & Heq & Hn & Hin & _)]; [by left|].
  right. exists n, table. rewrite Heq. simpl.
  destruct (region_with_point_has_grid x y table Hin) as [Hx Hy].
  split; [done|]. split; [done|].
  split; [by apply ScanFacts.coords_at_x_grid|].
  split; [by apply ScanFacts.coords_at_y_grid|].
  split; by apply cur_index_in_range.
Qed.

Lemma center_between lo hi : lo ≤ hi → lo ≤ center lo hi ≤ hi.
Proof.
  intros Hle. unfold center.
  pose proof (Z.quot_rem' (lo + hi) 2) as Hqr.
  pose proof (Z.rem_bound_abs (lo + hi) 2 ltac:(lia)). lia.
Qed.

(** X9.  A word whose box has its top-left and its bottom-right corner inside a
    detected region is never sent through the text flow: its centre
    resolves to a region (that one, or one listed before it). *)
Theorem word_inside_a_region_gets_a_table
    (tables : list (list (list cv.Point))) (table : list (list cv.Point))
    (left top right bottom : Z) :
  table ∈ tables → left ≤ right → top ≤ bottom →
  IsPointInsideTable_xy left top table = true →
  IsPointInsideTable_xy right bottom table = true →
  find_table (center left right) (center top bottom) tables ≠ -1.
Proof.
  intros Htable Hlr Htb Hin1 Hin2 Hnone.
  apply MembershipFacts.IsPointInsideTable_inclusive in Hin1, Hin2.
  destruct Hin1 as ((p1 & Hp1 & Hx1) & _ & (p3 & Hp3 & Hy1) & _).
  destruct Hin2 as (_ & (p2 & Hp2 & Hx2) & _ & (p4 & Hp4 & Hy2)).
  pose proof (center_between left right Hlr).
  pose proof (center_between top bottom Htb).
  unfold find_table in Hnone.
  destruct (MembershipFacts.find_table_from_spec
              (center left right) (center top bottom) tables 0)
    as [[_ Hout]|(n & ? & Heq & _)]; [|lia].
  apply (Hout table Htable). unfold in_bounding_rect_inclusive.
  split; [|split; [|split]].
  - exists p1. split; [done|lia].
  - exists p2. split; [done|lia].
  - exists p3. split; [done|lia].
  - exists p4. split; [done|lia].
Qed.

Lemma word_inside_a_region_gets_a_table_witness :
  find_table (center 3 7) (center 3 7) [Samples.ruled_table] ≠ -1.
Proof.
  apply (word_inside_a_region_gets_a_table [Samples.ruled_table]
           Samples.ruled_table 3 3 7 7);
    [apply list_elem_of_here | lia | lia | reflexivity | reflexivity].
Defined.

End AddressProperties.

(** ** More about the table detector *)

Module DetectorProperties.
Section with_backend.
Context `{backend : CvBackend}.
Import TableExtractor.

Lemma spec_regions_sizes joints contours :
  Forall (λ region : list (list cv.Point), (5 ≤ length region)%nat)
         (spec_regions joints contours) ∧
  (length (spec_regions joints contours) ≤ length contours)%nat.
Proof.
  unfold spec_regions. split.
  - apply Forall_fmap, Forall_forall. intros c Hc.
    apply list_elem_of_filter in Hc as [Hacc _].
    apply TableExtractorFacts.accepted_iff in Hacc as [_ Hmany].
    unfold region_of, translate_all. simpl. rewrite length_map. lia.
  - rewrite length_fmap. apply length_filter.
Qed.

(** X10.  Whatever the page, a region that [ExtractTableJoints] returns has at
    least five joint contours, and there are never more regions than
    contours on the combined line mask. *)
Theorem returned_regions_have_five_joints
    (filename : string) (regions : list (list (list cv.Point))) :
  ExtractTableJoints filename = Ok regions →
  Forall (λ region : list (list cv.Point), (5 ≤ length region)%nat) regions ∧
  ∃ joints contours,
    line_masks filename = Ok (joints, contours) ∧
    (length regions ≤ length contours)%nat.
Proof.
  unfold ExtractTableJoints.
  destruct (line_masks filename) as [[joints contours]|]; [|done].
  simpl. intros [= <-]. rewrite TableExtractorFacts.tables_loop_spec. simpl.
  destruct (spec_regions_sizes joints contours) as [Hfive Hcount].
  split; [done|]. by exists joints, contours.
Qed.

End with_backend.

Example ruled_backend_detection :
  TableExtractor.ExtractTableJoints (backend := DetectionSamples.ruled_backend)
    "page.png" = Ok [Samples.ruled_table].
Proof. reflexivity. Qed.

Lemma returned_regions_have_five_joints_witness :
  Forall (λ region : list (list cv.Point), (5 ≤ length region)%nat)
         [Samples.ruled_table] ∧
  ∃ joints contours,
    TableExtractor.line_masks (backend := DetectionSamples.ruled_backend) "page.png"
    = Ok (joints, contours) ∧
    (length [Samples.ruled_table] ≤ length contours)%nat.
Proof.
  apply (returned_regions_have_five_joints
           (backend := DetectionSamples.ruled_backend) "page.png"
           [Samples.ruled_table]).
  reflexivity.
Defined.

End DetectorProperties.

(** ** More about the serialiser *)

Module SerializerProperties.
Import Abbyy Views.

(** *** Statements that write nothing of a kind *)

Section muting.
Variable keep : markup → bool.

Lemma mute_seq m k : mute keep m → mute keep k → mute keep (m ;; k).
Proof.
  intros Hm Hk st. rewrite AbbyyFacts.run_seq. cbn [snd].
  by rewrite List.filter_app, Hm, Hk.
Qed.

Lemma mute_when b m : mute keep m → mute keep (when b m).
Proof. intros Hm. by destruct b. Qed.

Lemma mute_get k : (∀ st, mute keep (k st)) → mute keep (st ← get; k st).
Proof. intros Hk st. rewrite AbbyyFacts.run_get. apply Hk. Qed.

Lemma mute_ret : mute keep (mret tt).
Proof. done. Qed.

Lemma mute_modify f : mute keep (modify f).
Proof. done. Qed.

Lemma mute_emit m : keep m = false → mute keep (emit m).
Proof. intros Hm st. simpl. by rewrite Hm. Qed.

Lemma row_step_mute y coords :
  (∀ m, is_structure m = true → keep m = false) → mute keep (row_step y coords).
Proof.
  intros Hkeep. unfold row_step.
  destruct (Membership.find_boundary y coords); [|apply mute_ret].
  apply mute_get. intros st.
  repeat first [ apply mute_seq | apply mute_when | apply mute_modify
               | apply mute_emit, Hkeep; reflexivity ].
Qed.

Lemma col_step_mute x coords :
  (∀ m, is_structure m = true → keep m = false) → mute keep (col_step x coords).
Proof.
  intros Hkeep. unfold col_step.
  destruct (Membership.find_boundary x coords); [|apply mute_ret].
  apply mute_get. intros st.
  repeat first [ apply mute_seq | apply mute_when | apply mute_modify
               | apply mute_emit, Hkeep; reflexivity ].
Qed.

End muting.

Ltac mute_tac Hkeep :=
  repeat first
    [ apply mute_seq | apply mute_when | apply mute_modify | apply mute_ret
    | apply mute_get; intros ?
    | apply row_step_mute; exact Hkeep
    | apply col_step_mute; exact Hkeep
    | apply mute_emit, Hkeep; reflexivity ].

(** *** Statements that leave a component of the cursor alone *)

Section preserving.
Context {A : Type} (f : Cursor → A).

Lemma preserves_seq m k : preserves f m → preserves f k → preserves f (m ;; k).
Proof.
  intros Hm Hk st. rewrite AbbyyFacts.run_seq. cbn [fst]. by rewrite Hk, Hm.
Qed.

Lemma preserves_when b m : preserves f m → preserves f (when b m).
Proof. intros Hm. by destruct b. Qed.

Lemma preserves_get k : (∀ st, preserves f (k st)) → preserves f (st ← get; k st).
Proof. intros Hk st. rewrite AbbyyFacts.run_get. apply Hk. Qed.

Lemma preserves_emit m : preserves f (emit m).
Proof. done. Qed.

Lemma preserves_modify g : (∀ st, f (g st) = f st) → preserves f (modify g).
Proof. intros Hg st. apply Hg. Qed.

End preserving.

Ltac preserves_tac :=
  repeat first
    [ apply preserves_seq | apply preserves_when | apply preserves_emit
    | apply preserves_get; intros ?
    | apply preserves_modify; intros ?; reflexivity ].

Section with_escape.
Variable HOcrEscape : string → string.

(** What one pass of the loop body writes, seen through a filter that drops
    the structure tags: only the word is left. *)
Lemma process_word_kept keep env st w :
  (∀ m, is_structure m = true → keep m = false) →
  let x := Membership.center (box_left (word_box w)) (box_right (word_box w)) in
  let y := Membership.center (box_top (word_box w)) (box_bottom (word_box w)) in
  let cur_table_idx := Membership.find_table x y (tables_joints env) in
  ∃ st',
    List.filter keep (run (process_word HOcrEscape env w) st).2 =
    List.filter keep
      (if cur_table_idx =? -1
       then flow_word HOcrEscape (font_info env) st' w
       else table_word w).
Proof.
  intros Hkeep x y cur. unfold process_word. fold x y cur.
  rewrite AbbyyFacts.run_seq. cbn [fst snd]. rewrite List.filter_app.
  match goal with
  | |- context [run (when ?b ?m) st] =>
      assert (mute keep (when b m)) as Hblock by
        (unfold open_block; mute_tac Hkeep);
      rewrite (Hblock st)
  end.
  set (st1 := (run (when (at_block_start w) (open_block env w)) st).1).
  rewrite AbbyyFacts.run_get, AbbyyFacts.run_seq. cbn [fst snd].
  rewrite List.filter_app.
  match goal with
  | |- context [run (when ?b ?m) st1] =>
      assert (mute keep (when b m)) as Hchange by mute_tac Hkeep;
      rewrite (Hchange st1);
      set (st2 := (run (when b m) st1).1)
  end.
  rewrite AbbyyFacts.run_seq. cbn [fst snd]. rewrite List.filter_app.
  match goal with
  | |- context [run (modify (set_prev_table_idx cur);; ?k) ?s] =>
      assert (mute keep (modify (set_prev_table_idx cur);; k)) as Hclose
        by mute_tac Hkeep;
      rewrite (Hclose s)
  end.
  rewrite app_nil_r. cbn [app].
  destruct (cur =? -1) eqn:Hcur; cbn [negb].
  - rewrite AbbyyFacts.run_seq. cbn [fst snd]. rewrite List.filter_app.
    rewrite AbbyyFacts.run_seq. cbn [fst snd]. rewrite List.filter_app.
    rewrite AbbyyFacts.run_get, AbbyyFacts.run_emit_all. cbn [fst snd].
    match goal with
    | |- context [run (when (at_para_start w) ?m) st2] =>
        assert (mute keep (when (at_para_start w) m)) as Hpara by
          (unfold open_paragraph; mute_tac Hkeep);
        rewrite (Hpara st2)
    end.
    match goal with
    | |- context [run (when (at_line_start w) ?m) ?s] =>
        assert (mute keep (when (at_line_start w) m)) as Hline by
          (unfold open_line; mute_tac Hkeep);
        rewrite (Hline s)
    end.
    cbn [app]. eexists. reflexivity.
  - rewrite AbbyyFacts.run_get.
    repeat (rewrite AbbyyFacts.run_seq; cbn [fst snd]; rewrite List.filter_app).
    rewrite AbbyyFacts.run_emit_all. cbn [fst snd].
    match goal with
    | |- context [run (when ?b ?m) st2] =>
        assert (mute keep (when b m)) as Hopen by mute_tac Hkeep;
        rewrite (Hopen st2)
    end.
    match goal with
    | |- context [run (row_step ?a ?b) ?s] =>
        rewrite (row_step_mute keep a b Hkeep s)
    end.
    match goal with
    | |- context [run (col_step ?a ?b) ?s] =>
        rewrite (col_step_mute keep a b Hkeep s)
    end.
    cbn [app]. exists st. reflexivity.
Qed.

(** *** Empty and blank words *)

Lemma words_loop_visible env words st :
  words_loop HOcrEscape env words st
  = words_loop HOcrEscape env (List.filter visible words) st.
Proof.
  revert st. induction words as [|w words IH]; intros st; [done|].
  cbn [words_loop List.filter]. unfold visible.
  destruct (word_empty w) eqn:Hempty; [apply IH|].
  destruct (is_blank (text w)) eqn:Hblank; [apply IH|].
  cbn [negb andb words_loop]. rewrite Hempty, Hblank.
  unfold mbind, render_bind.
  destruct (process_word HOcrEscape env w st) as [[[] st1] out1].
  by rewrite IH.
Qed.

Lemma blank_words_lemma api page_number name tables words :
  page_markup HOcrEscape api page_number name tables words
  = page_markup HOcrEscape api page_number name tables (List.filter visible words).
Proof. unfold page_markup, run. by rewrite words_loop_visible. Qed.

(** X11.  Words that are empty or blank leave no trace: the page written for a
    stream is the page written for the stream without them.  Nothing is
    opened, closed or counted for such a word, whatever its flags say. *)
Theorem blank_words_leave_no_trace (api : TessBaseAPI) (page_number : Z)
    (name : string) (tables : list (list (list cv.Point))) (words : list Word) :
  page_markup HOcrEscape api page_number name tables words
  = page_markup HOcrEscape api page_number name tables (List.filter visible words).
Proof. apply blank_words_lemma. Qed.

(** X12.  A page on which no word is left (none recognised, or all of them empty
    or blank) is the page element alone: its start tag, a line end and its
    end tag, whatever tables were detected. *)
Theorem page_without_words_is_the_bare_wrapper (api : TessBaseAPI)
    (page_number : Z) (name : string) (tables : list (list (list cv.Point)))
    (words : list Word) :
  Forall (λ w, visible w = false) words →
  tag_events (page_markup HOcrEscape api page_number name tables words)
  = [Opened Page; Closed Page] ∧
  print (page_markup HOcrEscape api page_number name tables words)
  = print (page_markup HOcrEscape api page_number name tables []) ∧
  well_formed (page_markup HOcrEscape api page_number name tables words) = true.
Proof.
  intros Hnone.
  assert (List.filter visible words = []) as Hfilter.
  { induction Hnone as [|w words Hw _ IH]; [done|]. simpl. by rewrite Hw. }
  rewrite blank_words_lemma, Hfilter. done.
Qed.

(** *** The words in the output *)

Lemma texts_app out1 out2 : texts (out1 ++ out2) = texts out1 ++ texts out2.
Proof. apply flat_map_app. Qed.

Lemma texts_filter out : texts (List.filter is_text out) = texts out.
Proof.
  induction out as [|m out IH]; [done|]. destruct m; simpl; by rewrite ?IH.
Qed.

Lemma word_kept_text fi st w (in_flow : bool) :
  texts (List.filter is_text
           (if in_flow then flow_word HOcrEscape fi st w else table_word w))
  = [text w].
Proof.
  destruct in_flow; unfold flow_word, table_word, word_body, direction_marker;
    destruct (bold w), (italic w), (direction w), (para_is_ltr st); reflexivity.
Qed.

Lemma word_kept_span fi st w (in_flow : bool) :
  length (List.filter (is_open WordSpan)
            (if in_flow then flow_word HOcrEscape fi st w else table_word w)) = 1%nat ∧
  length (List.filter (is_close WordSpan)
            (if in_flow then flow_word HOcrEscape fi st w else table_word w)) = 1%nat.
Proof.
  destruct in_flow; unfold flow_word, table_word, word_body, direction_marker;
    destruct (bold w), (italic w), (direction w), (para_is_ltr st); split; reflexivity.
Qed.

Lemma structure_is_not_text m : is_structure m = true → is_text m = false.
Proof. by destruct m. Qed.

Lemma structure_is_not_span_open m :
  is_structure m = true → is_open WordSpan m = false.
Proof. destruct m as [e ? ?|e ?| |]; try done. by destruct e. Qed.

Lemma structure_is_not_span_close m :
  is_structure m = true → is_close WordSpan m = false.
Proof. destruct m as [e ? ?|e ?| |]; try done. by destruct e. Qed.

Lemma process_word_words env st w :
  let out := (run (process_word HOcrEscape env w) st).2 in
  texts out = [text w] ∧ opens WordSpan out = 1%nat ∧ closes WordSpan out = 1%nat.
Proof.
  cbv zeta. unfold opens, closes.
  destruct (process_word_kept is_text env st w structure_is_not_text)
    as [st1 H1].
  destruct (process_word_kept (is_open WordSpan) env st w
              structure_is_not_span_open) as [st2 H2].
  destruct (process_word_kept (is_close WordSpan) env st w
              structure_is_not_span_close) as [st3 H3].
  rewrite <-texts_filter, H1, H2, H3, word_kept_text.
  split; [done|]. split; apply word_kept_span.
Qed.

Lemma words_loop_words env words : ∀ st,
  let out := (run (words_loop HOcrEscape env words) st).2 in
  texts out = text <$> List.filter visible words ∧
  opens WordSpan out = length (List.filter visible words) ∧
  closes WordSpan out = length (List.filter visible words).
Proof.
  induction words as [|w words IH]; intros st; [done|].
  cbn [words_loop List.filter]. unfold visible.
  destruct (word_empty w); [apply IH|].
  destruct (is_blank (text w)); [apply IH|].
  cbn [negb andb]. cbv zeta. rewrite AbbyyFacts.run_seq. cbn [fst snd].
  destruct (IH (run (process_word HOcrEscape env w) st).1) as (Ht & Ho & Hc).
  destruct (process_word_words env st w) as (Ht1 & Ho1 & Hc1).
  unfold opens, closes in *.
  rewrite texts_app, !List.filter_app, !length_app, Ht, Ho, Hc, Ht1, Ho1, Hc1.
  done.
Qed.


(** *** Pages whose words are all outside the tables *)

Lemma mute_emit_all keep out : List.filter keep out = [] → mute keep (emit_all out).
Proof. intros Hout st. exact Hout. Qed.

Ltac mute_refl_tac :=
  repeat first
    [ apply mute_seq | apply mute_when | apply mute_modify | apply mute_ret
    | apply mute_get; intros ?
    | apply mute_emit; reflexivity ].

Lemma flow_word_no_table_tag fi st w :
  List.filter is_table_tag (flow_word HOcrEscape fi st w) = [].
Proof.
  unfold flow_word, word_body, direction_marker.
  destruct (bold w), (italic w), (direction w), (para_is_ltr st); reflexivity.
Qed.

(** After the loop body, [prev_table_idx] is the table of the word just
    written. *)
Lemma process_word_prev_table env st w :
  prev_table_idx (run (process_word HOcrEscape env w) st).1
  = Membership.find_table
      (Membership.center (box_left (word_box w)) (box_right (word_box w)))
      (Membership.center (box_top (word_box w)) (box_bottom (word_box w)))
      (tables_joints env).
Proof.
  unfold process_word.
  rewrite AbbyyFacts.run_seq. cbn [fst].
  rewrite AbbyyFacts.run_get, AbbyyFacts.run_seq. cbn [fst].
  rewrite AbbyyFacts.run_seq. cbn [fst].
  rewrite AbbyyFacts.run_seq. cbn [fst].
  match goal with
  | |- prev_table_idx (run ?k ?s).1 = _ =>
      assert (preserves prev_table_idx k) as Hk by preserves_tac;
      rewrite (Hk s)
  end.
  reflexivity.
Qed.

Lemma flow_word_writes_no_table_tag env st w :
  prev_table_idx st = -1 →
  Membership.find_table
    (Membership.center (box_left (word_box w)) (box_right (word_box w)))
    (Membership.center (box_top (word_box w)) (box_bottom (word_box w)))
    (tables_joints env) = -1 →
  List.filter is_table_tag (run (process_word HOcrEscape env w) st).2 = [].
Proof.
  intros Hprev Hcur. unfold process_word. rewrite Hcur.
  rewrite AbbyyFacts.run_seq. cbn [fst snd]. rewrite List.filter_app.
  assert (mute is_table_tag (when (at_block_start w) (open_block env w))) as Hblock
    by (unfold open_block; mute_refl_tac).
  assert (preserves prev_table_idx (when (at_block_start w) (open_block env w)))
    as Hblock' by (unfold open_block; preserves_tac).
  rewrite Hblock, AbbyyFacts.run_get, Hblock', Hprev, !Z.eqb_refl.
  cbn [app negb].
  match goal with
  | |- List.filter is_table_tag (run ?m ?s).2 = [] =>
      assert (mute is_table_tag m) as Hrest; [|apply Hrest]
  end.
  apply mute_seq; [by intros ?|]. apply mute_seq; [|mute_refl_tac].
  apply mute_seq; [unfold open_paragraph; mute_refl_tac|].
  apply mute_seq; [unfold open_line; mute_refl_tac|].
  apply mute_get. intros st'. apply mute_emit_all, flow_word_no_table_tag.
Qed.

Lemma flow_words_write_no_table_tag env words : ∀ st,
  prev_table_idx st = -1 →
  Forall (λ w, visible w = true →
               Membership.find_table
                 (Membership.center (box_left (word_box w)) (box_right (word_box w)))
                 (Membership.center (box_top (word_box w)) (box_bottom (word_box w)))
                 (tables_joints env) = -1) words →
  List.filter is_table_tag (run (words_loop HOcrEscape env words) st).2 = [].
Proof.
  induction words as [|w words IH]; intros st Hprev Hout; [done|].
  inversion Hout as [|? ? Hw Hrest]; subst.
  cbn [words_loop]. unfold visible in Hw.
  destruct (word_empty w); [by apply IH|].
  destruct (is_blank (text w)); [by apply IH|].
  specialize (Hw eq_refl).
  rewrite AbbyyFacts.run_seq. cbn [fst snd]. rewrite List.filter_app.
  rewrite flow_word_writes_no_table_tag by done.
  apply IH; [|done]. by rewrite process_word_prev_table.
Qed.


End with_escape.

Lemma page_without_words_is_the_bare_wrapper_witness :
  tag_events
    (page_markup id (Samples.sample_api (Some "page.png") []) 0 "page.png"
       [Samples.ruled_table] [DetectionSamples.blank_word])
  = [Opened Page; Closed Page] ∧
  print
    (page_markup id (Samples.sample_api (Some "page.png") []) 0 "page.png"
       [Samples.ruled_table] [DetectionSamples.blank_word])
  = print
      (page_markup id (Samples.sample_api (Some "page.png") []) 0 "page.png"
         [Samples.ruled_table] []) ∧
  well_formed
    (page_markup id (Samples.sample_api (Some "page.png") []) 0 "page.png"
       [Samples.ruled_table] [DetectionSamples.blank_word]) = true.
Proof.
  apply (page_without_words_is_the_bare_wrapper id
           (Samples.sample_api (Some "page.png") []) 0 "page.png"
           [Samples.ruled_table] [DetectionSamples.blank_word]).
  repeat constructor.
Defined.


End SerializerProperties.

(** ** What [GetAbbyyText] and [AddImageHandler] hand back *)

Module ApiProperties.
Import Abbyy Document.

Section with_api.
Variable HOcrEscape : string → string.
Variable Recognize : TessBaseAPI → option (list Word).
Variable SetInputName : option string → TessBaseAPI → TessBaseAPI.
Context `{backend : CvBackend}.

Lemma GetAbbyyText_null api page_number :
  GetAbbyyText HOcrEscape Recognize SetInputName api page_number = Ok None ↔
  tesseract_ api = false ∨ (page_res_ api = None ∧ Recognize api = None).
Proof.
  unfold GetAbbyyText, GetAbbyyText_markup.
  destruct (tesseract_ api); cbn [negb]; [|by split; [left|]].
  destruct (page_res_ api) as [words|].
  - split; [|by intros [?|[? _]]].
    destruct (input_file_ _) as [name|]; [|done].
    cbn [mbind cv_bind]. by destruct (TableExtractor.ExtractTableJoints _).
  - destruct (Recognize api) as [words|]; [|by split; [right|]].
    split; [|by intros [?|[_ ?]]].
    destruct (input_file_ _) as [name|]; [|done].
    cbn [mbind cv_bind]. by destruct (TableExtractor.ExtractTableJoints _).
Qed.

Lemma GetAbbyyText_raises api page_number :
  GetAbbyyText HOcrEscape Recognize SetInputName api page_number = CvException ↔
  tesseract_ api = true ∧
  (is_Some (page_res_ api) ∨ is_Some (Recognize api)) ∧
  ∃ name,
    input_file_ (match input_file_ api with
                 | None => SetInputName None api
                 | Some _ => api
                 end) = Some name ∧
    TableExtractor.ExtractTableJoints (HOcrEscape name) = CvException.
Proof.
  unfold GetAbbyyText, GetAbbyyText_markup.
  destruct (tesseract_ api); cbn [negb]; [|by split; [|intros [? _]]].
  assert (∀ words : list Word,
    match
      match input_file_ (match input_file_ api with
                         | None => SetInputName None api
                         | Some _ => api
                         end) with
      | Some name =>
          tables ← TableExtractor.ExtractTableJoints (HOcrEscape name);
          Ok (Some (page_markup HOcrEscape
                      (match input_file_ api with
                       | None => SetInputName None api
                       | Some _ => api
                       end) page_number name tables words))
      | None => Ok (Some (unknown_markup page_number))
      end
    with
    | Ok (Some out) => Ok (Some (print out))
    | Ok None => Ok None
    | CvException => CvException
    end = CvException ↔
    ∃ name,
      input_file_ (match input_file_ api with
                   | None => SetInputName None api
                   | Some _ => api
                   end) = Some name ∧
      TableExtractor.ExtractTableJoints (HOcrEscape name) = CvException) as Hbranch.
  { intros words.
    destruct (input_file_ _) as [name|]; [|by split; [|intros (? & ? & _)]].
    cbn [mbind cv_bind].
    destruct (TableExtractor.ExtractTableJoints (HOcrEscape name)) eqn:HE.
    - split; [done|]. intros (name' & [= <-] & HE'). congruence.
    - split; [|done]. intros _. by exists name. }
  destruct (page_res_ api) as [words|].
  - rewrite Hbranch. split; [|by intros (_ & _ & ?)].
    intros H. split; [done|]. split; [left; by eexists|done].
  - destruct (Recognize api) as [words|].
    + rewrite Hbranch. split; [|by intros (_ & _ & ?)].
      intros H. split; [done|]. split; [right; by eexists|done].
    + split; [done|]. intros (_ & [[? ?]|[? ?]] & _); done.
Qed.



End with_api.


End ApiProperties.

(** ** When the grid builder is exact *)

Module GridExactness.
Import Grid CleanGrid.

Lemma clean_axis_keeps_heads coord (table : list (list cv.Point)) p pts :
  clean_axis coord table → (p :: pts) ∈ table → coord p ∈ spec_axis coord table.
Proof.
  intros Hclean Hg.
  destruct (GridProperties.spec_axis_covers_heads coord table p pts Hg)
    as (a & Ha & Hnear).
  pose proof Ha as Ha'.
  apply GridProperties.spec_axis_from_points in Ha' as (g' & q & Hg' & Hq & <-).
  destruct (Hclean g' (p :: pts) q p Hg' Hg Hq (list_elem_of_here _ _))
    as [Heq|Hfar]; [by rewrite <-Heq|lia].
Qed.

(** X5.  On an axis where the coordinates of any two joint points are either
    equal or at least 3 pixels apart (ruling lines drawn cleanly), the
    coordinate of the first point of every joint group is a boundary of the
    grid: nothing is merged away. *)
Theorem clean_axis_keeps_every_first_coordinate
    (table : list (list cv.Point)) (p : cv.Point) (pts : list cv.Point) :
  (p :: pts) ∈ table →
  (clean_axis cv.x table → cv.x p ∈ x_grid table) ∧
  (clean_axis cv.y table → cv.y p ∈ y_grid table).
Proof.
  intros Hg. rewrite GridFacts.x_grid_spec, GridFacts.y_grid_spec.
  split; intros Hclean; by eapply clean_axis_keeps_heads.
Qed.

Lemma clean_axis_keeps_every_first_coordinate_witness :
  cv.x (cv.mkPoint 10 18) ∈ x_grid Samples.ruled_table.
Proof.
  apply (clean_axis_keeps_every_first_coordinate Samples.ruled_table
           (cv.mkPoint 10 18) []).
  - unfold Samples.ruled_table.
    repeat first [apply list_elem_of_here | apply list_elem_of_further].
  - intros g1 g2 q1 q2 Hg1 Hg2 Hq1 Hq2.
    assert (∀ g q, g ∈ Samples.ruled_table → q ∈ g → cv.x q = 0 ∨ cv.x q = 10)
      as Hxs.
    { intros g q Hin Hq. unfold Samples.ruled_table in Hin.
      repeat (apply elem_of_cons in Hin as [->|Hin]);
        try (by apply elem_of_nil in Hin);
        repeat (apply elem_of_cons in Hq as [->|Hq]);
        try (by apply elem_of_nil in Hq); simpl; auto. }
    destruct (Hxs g1 q1 Hg1 Hq1) as [->| ->], (Hxs g2 q2 Hg2 Hq2) as [->| ->];
      first [left; reflexivity | right; simpl; lia].
Defined.

End GridExactness.

(** ** The row the cursor holds *)

Module CursorProperties.
Import Abbyy Views SerializerProperties.

Lemma row_step_prev_row y coords st :
  prev_row (run (row_step y coords) st).1
  = Nat.max (prev_row st) (Membership.cur_index y coords).
Proof.
  unfold row_step, Membership.cur_index.
  destruct (Membership.find_boundary y coords) as [cur_row|]; cbn [default];
    unfold id.
  - rewrite AbbyyFacts.run_get.
    destruct (prev_row st <? cur_row)%nat eqn:Hlt.
    + apply Nat.ltb_lt in Hlt.
      assert (Nat.max (prev_row st) cur_row = cur_row) as -> by lia.
      by destruct (prev_row st =? 0)%nat.
    + apply Nat.ltb_ge in Hlt.
      assert (Nat.max (prev_row st) cur_row = prev_row st) as -> by lia.
      done.
  - by rewrite Nat.max_0_r.
Qed.

Lemma col_step_preserves_row x coords : preserves prev_row (col_step x coords).
Proof.
  unfold col_step. destruct (Membership.find_boundary x coords); [|done].
  intros st. rewrite AbbyyFacts.run_get.
  by destruct (prev_col st <? n)%nat, (prev_col st =? 0)%nat.
Qed.

Section with_escape.
Variable HOcrEscape : string → string.

(** X15.  For a word inside a table, the row the cursor holds after the word is
    the larger of the row it held before (0 if the word enters the table
    from elsewhere) and the row index assigned to the word: inside one
    table the cursor holds the largest row index met so far. *)
Theorem open_row_is_largest_row_so_far (env : PageEnv) (st : Cursor) (w : Word) :
  let x := Membership.center (box_left (word_box w)) (box_right (word_box w)) in
  let y := Membership.center (box_top (word_box w)) (box_bottom (word_box w)) in
  let cur_table_idx := Membership.find_table x y (tables_joints env) in
  cur_table_idx ≠ -1 →
  prev_row (run (process_word HOcrEscape env w) st).1
  = Nat.max (if prev_table_idx st =? cur_table_idx then prev_row st else O)
            (Membership.cur_index y (coords_at (y_coords env) cur_table_idx)).
Proof.
  intros x y cur Hcur. unfold process_word. fold x y cur.
  apply Z.eqb_neq in Hcur. rewrite Hcur. cbn [negb].
  rewrite AbbyyFacts.run_seq. cbn [fst].
  assert (preserves prev_row (when (at_block_start w) (open_block env w))) as Hrow
    by (unfold open_block; preserves_tac).
  assert (preserves prev_table_idx (when (at_block_start w) (open_block env w)))
    as Htable by (unfold open_block; preserves_tac).
  set (st1 := (run (when (at_block_start w) (open_block env w)) st).1).
  rewrite <-(Hrow st), <-(Htable st). fold st1.
  rewrite AbbyyFacts.run_get, AbbyyFacts.run_seq. cbn [fst].
  match goal with
  | |- context [run (when ?b ?m) st1] => set (st2 := (run (when b m) st1).1)
  end.
  assert (prev_row st2 = if prev_table_idx st1 =? cur then prev_row st1 else O)
    as <- by (subst st2; by destruct (prev_table_idx st1 =? cur)).
  rewrite AbbyyFacts.run_seq. cbn [fst].
  match goal with
  | |- prev_row (run ?k ?s).1 = _ =>
      assert (preserves prev_row k) as Hk by preserves_tac;
      rewrite (Hk s)
  end.
  rewrite AbbyyFacts.run_get, AbbyyFacts.run_seq. cbn [fst].
  rewrite AbbyyFacts.run_seq. cbn [fst].
  rewrite AbbyyFacts.run_seq. cbn [fst].
  rewrite AbbyyFacts.run_emit_all. cbn [fst].
  rewrite col_step_preserves_row, row_step_prev_row.
  match goal with
  | |- context [run (when ?b ?m) st2] =>
      assert (preserves prev_row (when b m)) as Hopen by preserves_tac;
      rewrite (Hopen st2)
  end.
  reflexivity.
Qed.

End with_escape.

Lemma open_row_is_largest_row_so_far_witness :
  prev_row (run (process_word id (Samples.sample_env true) Samples.cell_word)
                (Samples.in_table_row 2)).1 = 2%nat.
Proof.
  apply (open_row_is_largest_row_so_far id (Samples.sample_env true)
           (Samples.in_table_row 2) Samples.cell_word).
  discriminate.
Defined.

End CursorProperties.
